(** * RPI-Screen-mirror: the frame transport layer

    A shallow embedding of the length-prefixed framing shared by
    [rpi_screen_sender.py] (the writer, on the Raspberry Pi) and
    [pc_screen_receiver.py] (the reader, on the PC), with the properties the
    specification states about them.

    Conventions.
    - Bytes are [Byte.byte]; a Python [bytes] or [bytearray] is a [list byte].
    - Python integers are [Z]; [len(x)] is [Z.of_nat (length x)].
    - [time.time()] readings are rationals ([Q]); the rounding of the
      underlying double is not modelled.
    - The receiver thread is a step function on an explicit state.  What the
      thread cannot decide itself is an input of each step: the value it
      observes in [self.running] and the reading [time.time()] returns.
    - The sender's loop is a step function too, one step per turn of its
      [while]; a turn's input is what it meets: a call of [stop()], the
      image captured, the clock, a call on the handle that raises.
    - The viewer's window is a record of what its handlers read and write,
      with the calls it makes on threads and dialogs kept as logs. *)

From Stdlib Require Import List ZArith QArith Qminmax Lia Lqa Bool.
From Stdlib Require Import Strings.Byte.
From Stdlib Require String.
Import ListNotations.

Local Open Scope Z_scope.

(** ** [struct.pack('>I', n)] and [struct.unpack('>I', b)] *)

Module Wire.

Definition byte_of_Z (z : Z) : byte :=
  match Byte.of_N (Z.to_N (z mod 256)) with
  | Some b => b
  | None => x00
  end.

Definition Z_of_byte (b : byte) : Z := Z.of_N (Byte.to_N b).

(** [struct.pack('>I', n)]: four bytes, most significant first;
    [struct.error] ([None]) when [n] is not an unsigned 32-bit value. *)
Definition pack_be32 (n : Z) : option (list byte) :=
  if (0 <=? n) && (n <? 2 ^ 32)
  then Some [ byte_of_Z (n / 2 ^ 24); byte_of_Z (n / 2 ^ 16);
              byte_of_Z (n / 2 ^ 8); byte_of_Z n ]
  else None.

(** [struct.unpack('>I', b)[0]]: [struct.error] ([None]) unless [b] has
    exactly four bytes. *)
Definition unpack_be32 (b : list byte) : option Z :=
  match b with
  | [b0; b1; b2; b3] =>
      Some (((Z_of_byte b0 * 256 + Z_of_byte b1) * 256 + Z_of_byte b2) * 256
            + Z_of_byte b3)
  | _ => None
  end.

(** The largest length the four-byte field can carry. *)
Definition max_length : Z := 2 ^ 32 - 1.

End Wire.

(** ** The serial handle

    Reading side.  [serial.Serial(port, baud, timeout=1).read(size)] returns at
    most [size] bytes, and fewer when the timeout expires first.  The line is a
    queue of deliveries: [Chunk d] is a run of bytes that one [read] call can
    obtain before its timeout expires ([Chunk []] is an expiry with nothing
    received), [Fault] is a [serial.SerialException] (the device went away).
    An empty queue is an idle line: every [read] times out with [b'']. *)

Module Serial.

Inductive delivery :=
| Chunk (data : list byte)
| Fault.

Definition port := list delivery.

Inductive read_result :=
| Data (bytes : list byte)
| Raised.

(** What is left of a delivery goes back to the head of the queue. *)
Definition push (rest : list byte) (ds : port) : port :=
  match rest with
  | [] => ds
  | _ :: _ => Chunk rest :: ds
  end.

Definition read (size : Z) (p : port) : read_result * port :=
  match p with
  | [] => (Data [], [])
  | Fault :: ds => (Raised, ds)
  | Chunk d :: ds =>
      let n := Z.to_nat size in
      (Data (firstn n d), push (skipn n d) ds)
  end.

(** Writing side: the calls made on the handle, oldest first. *)
Inductive serial_op :=
| Write (data : list byte)
| Flush.

Definition written (op : serial_op) : list byte :=
  match op with
  | Write data => data
  | Flush => []
  end.

(** The bytes the calls put on the line, in order. *)
Definition wire (ops : list serial_op) : list byte := flat_map written ops.

End Serial.

(** ** [rpi_screen_sender.py] *)

Module Sender.

Import Serial.

Definition TARGET_FPS : Z := 15.
Definition FRAME_INTERVAL : Q := (1 / inject_Z TARGET_FPS)%Q.

(** Python's two-argument [max(a, b)]: [b] when [b > a], else [a]. *)
Definition py_max (a b : Q) : Q :=
  if Qlt_le_dec a b then b else a.

(** [sender_loop], lines 143-144:
    [sleep_time = max(0, FRAME_INTERVAL - process_time)], with the interval
    as a parameter. *)
Definition sleep_time (frame_interval process_time : Q) : Q :=
  py_max 0%Q (frame_interval - process_time)%Q.

(** Line 145: [time.sleep] is called only [if sleep_time > 0]. *)
Definition sleeps (frame_interval process_time : Q) : bool :=
  negb (Qle_bool (sleep_time frame_interval process_time) 0%Q).

(** [compress_and_send_frame], lines 87-98, on the encoded bytes.  The
    handle is the list of calls made on it so far.  [struct.pack] raising
    leaves the handle untouched ([None]). *)
Definition send_jpeg (serial_conn : list serial_op) (jpeg_bytes : list byte)
  : option (list serial_op * Z) :=
  let data_size := Z.of_nat (length jpeg_bytes) in
  match Wire.pack_be32 data_size with
  | None => None
  | Some size_bytes =>
      Some (serial_conn ++ [Write size_bytes; Write jpeg_bytes; Flush],
            data_size)
  end.

Section WithEncoder.

Variable RawImage : Type.

(** Lines 79-85: resize to the capture size and [image.save(buffer,
    format='JPEG', quality=JPEG_QUALITY)]; the codec is a collaborator. *)
Variable jpeg_save : RawImage -> list byte.

Definition compress_and_send_frame
  (serial_conn : list serial_op) (image : RawImage)
  : option (list serial_op * Z) :=
  send_jpeg serial_conn (jpeg_save image).

End WithEncoder.

(** The envelope a payload travels in: what one [send_jpeg] on a fresh
    handle puts on the line. *)
Definition encode_envelope (jpeg_bytes : list byte) : option (list byte) :=
  match send_jpeg [] jpeg_bytes with
  | Some (ops, _) => Some (wire ops)
  | None => None
  end.

End Sender.

(** ** [pc_screen_receiver.py]: [FrameReceiverThread.run] *)

Module Receiver.

Import Serial.

(** What the thread reads from its surroundings during one step. *)
Record input := mkInput {
  running : bool;   (* the value observed in [self.running] *)
  now : Q           (* the reading of [time.time()], line 77 *)
}.

(** The three [error_occurred.emit] sites: line 87 ("Error processing
    frame"), line 90 ("Serial error") and line 92 ("Unexpected error"). *)
Inductive error :=
| ProcessingError
| SerialError
| UnexpectedError.

(** Where the thread stands: at the test of the outer [while] (line 49), at
    the test of the inner [while] (line 62) with its three locals, or past
    the loop, the port closed by the [finally] clause. *)
Inductive control :=
| AwaitingHeader
| AwaitingPayload (frame_size : Z) (jpeg_data : list byte) (remaining : Z)
| Stopped.

Record state := mkState {
  pc : control;
  serial_port : port;
  frames_received : Z;
  start_time : Q;
  last_fps_update : Q
}.

Definition goto (c : control) (p : port) (s : state) : state :=
  mkState c p (frames_received s) (start_time s) (last_fps_update s).

(** Lines 42-47, the port opened. *)
Definition init (p : port) (t0 : Q) : state :=
  mkState AwaitingHeader p 0 t0 t0.

Section WithDecoder.

Variable Image : Type.

(** [Image.open(BytesIO(jpeg_data))]; [None] when it raises. *)
Variable image_open : list byte -> option Image.

(** What a step does that can be seen from outside, in order. *)
Inductive event :=
| EvRead (size : Z)              (* [self.serial_port.read(size)] *)
| EvDecode (data : list byte)    (* [Image.open(BytesIO(data))] *)
| EvFrame (image : Image)        (* [self.frame_received.emit(image)] *)
| EvFps (fps : Q)                (* [self.fps_update.emit(fps)] *)
| EvError (e : error).           (* [self.error_occurred.emit(...)] *)

(** Lines 69-87: what follows the inner loop, back to the outer test.  With
    [elapsed] zero the division of line 82 raises [ZeroDivisionError], which
    the [except] of line 86 reports like a decode failure. *)
Definition after_loop (i : input) (p : port) (s : state)
  (frame_size : Z) (jpeg_data : list byte) : state * list event :=
  if Z.of_nat (length jpeg_data) =? frame_size then
    match image_open jpeg_data with
    | Some image =>
        let frames_received' := frames_received s + 1 in
        let current_time := now i in
        let elapsed := (current_time - start_time s)%Q in
        if Qle_bool 1 (current_time - last_fps_update s) then
          if Qeq_bool elapsed 0 then
            (mkState AwaitingHeader p frames_received' (start_time s)
               (last_fps_update s),
             [EvDecode jpeg_data; EvFrame image; EvError ProcessingError])
          else
            let fps := (inject_Z frames_received' / elapsed)%Q in
            (mkState AwaitingHeader p frames_received' (start_time s)
               current_time,
             [EvDecode jpeg_data; EvFrame image; EvFps fps])
        else
          (mkState AwaitingHeader p frames_received' (start_time s)
             (last_fps_update s),
           [EvDecode jpeg_data; EvFrame image])
    | None =>
        (goto AwaitingHeader p s,
         [EvDecode jpeg_data; EvError ProcessingError])
    end
  else (goto AwaitingHeader p s, []).

(** One test of a loop condition and what it leads to, up to the next
    test. *)
Definition step (i : input) (s : state) : state * list event :=
  match pc s with
  | Stopped => (s, [])
  | AwaitingHeader =>
      if running i then
        match read 4 (serial_port s) with
        | (Raised, p) =>
            (goto Stopped p s, [EvRead 4; EvError SerialError])
        | (Data size_bytes, p) =>
            if (length size_bytes <? 4)%nat then
              (goto AwaitingHeader p s, [EvRead 4])
            else
              match Wire.unpack_be32 size_bytes with
              | Some frame_size =>
                  (goto (AwaitingPayload frame_size [] frame_size) p s,
                   [EvRead 4])
              | None =>
                  (goto Stopped p s, [EvRead 4; EvError UnexpectedError])
              end
        end
      else (goto Stopped (serial_port s) s, [])
  | AwaitingPayload frame_size jpeg_data remaining =>
      if (0 <? remaining) && running i then
        let size := Z.min remaining 4096 in
        match read size (serial_port s) with
        | (Raised, p) =>
            (goto Stopped p s, [EvRead size; EvError SerialError])
        | (Data [], p) =>
            let (s', evs) := after_loop i p s frame_size jpeg_data in
            (s', EvRead size :: evs)
        | (Data (b :: chunk), p) =>
            (goto (AwaitingPayload frame_size
                     (jpeg_data ++ b :: chunk)
                     (remaining - Z.of_nat (length (b :: chunk)))) p s,
             [EvRead size])
        end
      else after_loop i (serial_port s) s frame_size jpeg_data
  end.

(** The thread over a sequence of inputs, one per step. *)
Fixpoint run (ins : list input) (s : state) : state * list event :=
  match ins with
  | [] => (s, [])
  | i :: ins' =>
      let (s1, evs1) := step i s in
      let (s2, evs2) := run ins' s1 in
      (s2, evs1 ++ evs2)
  end.

(** Projections of a trace. *)
Definition decoded (evs : list event) : list (list byte) :=
  flat_map (fun e => match e with EvDecode d => [d] | _ => [] end) evs.

Definition frames (evs : list event) : list Image :=
  flat_map (fun e => match e with EvFrame im => [im] | _ => [] end) evs.

Definition errors (evs : list event) : list error :=
  flat_map (fun e => match e with EvError x => [x] | _ => [] end) evs.

Definition rates (evs : list event) : list Q :=
  flat_map (fun e => match e with EvFps q => [q] | _ => [] end) evs.

Definition reads (evs : list event) : list Z :=
  flat_map (fun e => match e with EvRead n => [n] | _ => [] end) evs.

(** The receiver's side of the codec: the payloads a run on a line that
    carries [stream] in one delivery hands to the decode stage. *)
Definition decode_envelope (ins : list input) (stream : list byte)
  : list (list byte) :=
  decoded (snd (run ins (init (push stream []) 0%Q))).

End WithDecoder.

Arguments EvRead {Image} size.
Arguments EvDecode {Image} data.
Arguments EvFrame {Image} image.
Arguments EvFps {Image} fps.
Arguments EvError {Image} e.
Arguments decoded {Image} evs.
Arguments frames {Image} evs.
Arguments errors {Image} evs.
Arguments rates {Image} evs.
Arguments reads {Image} evs.
Arguments after_loop {Image} image_open i p s frame_size jpeg_data.
Arguments step {Image} image_open i s.
Arguments run {Image} image_open ins s.
Arguments decode_envelope {Image} image_open ins stream.

(** [run] from its first line.  [opened] tells whether
    [serial.Serial(...)] of line 42 succeeded; when it raises, the
    [except] of line 89 reports a serial error and the thread is over:
    nothing has been read, and the locals of lines 45-47 were never
    assigned, so the counters of the stopped state stand for nothing.
    After a successful open the loop runs on the line [p]. *)
Definition session {Image : Type} (image_open : list byte -> option Image)
  (opened : bool) (p : port) (t0 : Q) (ins : list input)
  : state * list (event Image) :=
  if opened then run image_open ins (init p t0)
  else (mkState Stopped p 0 t0 t0, [EvError SerialError]).

(** The thread is never told to stop: [n] steps with [self.running] true
    and the clock at [t]. *)
Definition steady (n : nat) (t : Q) : list input :=
  repeat (mkInput true t) n.

Definition all_running (ins : list input) : Prop :=
  Forall (fun i => running i = true) ins.

(** The last rate report is not older than the start of the session. *)
Definition clock_ok (s : state) : Prop :=
  (start_time s <= last_fps_update s)%Q.

(** The inner loop's three locals add up. *)
Definition payload_inv (s : state) : Prop :=
  match pc s with
  | AwaitingPayload frame_size jpeg_data remaining =>
      Z.of_nat (length jpeg_data) + remaining = frame_size /\ 0 <= remaining
  | _ => True
  end.

(** Whether the thread stands inside the inner loop. *)
Definition in_payload_loop (s : state) : bool :=
  match pc s with
  | AwaitingPayload _ _ _ => true
  | _ => false
  end.

(** Whether a read brought at least one byte. *)
Definition brought_bytes (r : read_result) : bool :=
  match r with
  | Data (_ :: _) => true
  | _ => false
  end.

(** A step sequence took in one payload: the thread is back at the outer
    test with [p'] on the line, and [data] went to the decoder, once, with
    the one signal its outcome calls for. *)
Definition took_in {Image : Type} (image_open : list byte -> option Image)
  (s' : state) (evs : list (event Image)) (data : list byte) (p' : port)
  : Prop :=
  pc s' = AwaitingHeader /\ serial_port s' = p' /\ clock_ok s' /\
  decoded evs = [data] /\
  errors evs = match image_open data with
               | None => [ProcessingError]
               | Some _ => []
               end /\
  frames evs = match image_open data with
               | Some image => [image]
               | None => []
               end.

(** Inputs of the examples: the clock at 0, the thread left to run or told
    to stop. *)
Definition go : input := mkInput true 0%Q.
Definition halt : input := mkInput false 0%Q.

(** The envelope of the three-byte payload FF D8 D9, and two ways the line
    can carry it: with a stall after the first two header bytes, and one
    byte per delivery. *)
Definition sample_envelope : list byte :=
  [x00; x00; x00; x03; xff; xd8; xd9].

Definition stalled_line : port :=
  [Chunk [x00; x00]; Chunk [x00; x03; xff; xd8; xd9]].

Definition bytewise_line : port :=
  map (fun b => Chunk [b]) sample_envelope.

(** A stand-in decoder for the examples: accepts what starts with the JPEG
    start-of-image marker FF D8 and returns the bytes as the image. *)
Definition soi_open (data : list byte) : option (list byte) :=
  match data with
  | xff :: xd8 :: _ => Some data
  | _ => None
  end.

End Receiver.

(** ** [rpi_screen_sender.py]: [ScreenSender] and its [sender_loop] *)

Module SenderLoop.

Import Serial.

(** The attributes of a [ScreenSender]; [thread] tells whether
    [self.thread] holds a thread. *)
Record ScreenSender := mkSender {
  running : bool;
  thread : bool;
  frames_sent : Z;
  start_time : Q
}.

(** [__init__], lines 52-57. *)
Definition new_sender : ScreenSender := mkSender false false 0 0%Q.

(** [start], lines 161-169; the thread it creates runs [sender_loop]. *)
Definition start (s : ScreenSender) : ScreenSender :=
  if running s then s
  else mkSender true true (frames_sent s) (start_time s).

(** [stop], lines 171-176. *)
Definition stop (s : ScreenSender) : ScreenSender :=
  mkSender false false (frames_sent s) (start_time s).

(** [SenderGUI.update_button_state], lines 282-287. *)
Inductive button_text :=
| StartSending
| StopSending.

Definition update_button_state (s : ScreenSender) : button_text :=
  if running s then StopSending else StartSending.

(** [SenderGUI.toggle_sending], lines 273-280. *)
Definition toggle_sending (s : ScreenSender) : ScreenSender :=
  if running s then stop s else start s.

(** A call on the handle that raises: the call number [index] of a cycle
    (0 the write of the length, 1 the write of the payload, 2 the flush),
    after [sent] of the bytes it was to write went out. *)
Record fault := mkFault {
  index : nat;
  sent : nat
}.

(** The calls of a cycle that are made before one of them raises, and
    whether one did. *)
Definition cut (f : option fault) (calls : list serial_op)
  : list serial_op * bool :=
  match f with
  | None => (calls, false)
  | Some f =>
      match nth_error calls (index f) with
      | None => (calls, false)
      | Some (Write data) =>
          (firstn (index f) calls ++ [Write (firstn (sent f) data)], true)
      | Some Flush => (firstn (index f) calls, true)
      end
  end.

(** What the loop prints, sleeps and closes. *)
Inductive sender_event :=
| OpenFailed                                   (* lines 109-113 *)
| Progress (frames : Z) (elapsed avg_fps kilobytes : Q)  (* lines 136-140 *)
| Slept (seconds : Q)                          (* line 146 *)
| StreamFailed                                 (* lines 149-152 *)
| PortClosed.                                  (* lines 155-156 *)

(** The loop's view: the object, the calls made on [ser] so far, whether
    [ser] is open and whether the [while] is still being run. *)
Record loop := mkLoop {
  me : ScreenSender;
  ser : list serial_op;
  is_open : bool;
  looping : bool
}.

(** The [finally] clause, lines 153-159. *)
Definition finally (l : loop) : loop * list sender_event :=
  (mkLoop (mkSender false (thread (me l)) (frames_sent (me l))
             (start_time (me l)))
     (ser l) false false,
   if is_open l then [PortClosed] else []).

(** The [except] clause, lines 148-152, and then [finally]. *)
Definition raise (l : loop) : loop * list sender_event :=
  let (l', evs) := finally l in (l', StreamFailed :: evs).

Section WithEncoder.

Variable RawImage : Type.
Variable jpeg_save : RawImage -> list byte.

(** What one turn of the [while] meets: whether [stop()] ran on the
    controlling thread since the last test of line 120, the three readings
    of [time.time()] (lines 121, 133, 143), the image captured ([None]
    when the capture raises) and the call on the handle that raises, if
    one does. *)
Record cycle := mkCycle {
  stop_called : bool;
  frame_start : Q;
  captured : option RawImage;
  failing : option fault;
  sent_at : Q;
  done_at : Q
}.

(** Lines 120-146: one test of [self.running] and the turn it leads to. *)
Definition cycle_step (c : cycle) (l : loop) : loop * list sender_event :=
  if looping l then
    let me0 := if stop_called c then stop (me l) else me l in
    let l0 := mkLoop me0 (ser l) (is_open l) true in
    if running me0 then
      match captured c with
      | None => raise l0
      | Some image =>
          match Sender.compress_and_send_frame RawImage jpeg_save [] image
          with
          | None => raise l0
          | Some (calls, bytes_sent) =>
              let (made, raised) := cut (failing c) calls in
              if raised then
                raise (mkLoop me0 (ser l ++ made) (is_open l) true)
              else
                let me1 := mkSender (running me0) (thread me0)
                             (frames_sent me0 + 1) (start_time me0) in
                let l1 := mkLoop me1 (ser l ++ made) (is_open l) true in
                let elapsed := (sent_at c - start_time me0)%Q in
                let process_time := (done_at c - frame_start c)%Q in
                let sleep_time :=
                  Sender.sleep_time Sender.FRAME_INTERVAL process_time in
                let nap :=
                  if Sender.sleeps Sender.FRAME_INTERVAL process_time
                  then [Slept sleep_time] else [] in
                if frames_sent me1 mod 30 =? 0 then
                  if Qeq_bool elapsed 0 then raise l1
                  else
                    (l1,
                     Progress (frames_sent me1) elapsed
                       (inject_Z (frames_sent me1) / elapsed)%Q
                       (inject_Z bytes_sent / 1024)%Q :: nap)
                else (l1, nap)
          end
      end
    else finally l0
  else (l, []).

Fixpoint run_cycles (cycles : list cycle) (l : loop)
  : loop * list sender_event :=
  match cycles with
  | [] => (l, [])
  | c :: cycles' =>
      let (l1, evs1) := cycle_step c l in
      let (l2, evs2) := run_cycles cycles' l1 in
      (l2, evs1 ++ evs2)
  end.

(** [sender_loop], lines 100-159: [opened] tells whether
    [serial.Serial(SERIAL_PORT, ...)] succeeded, [t0] is the reading of
    line 117. *)
Definition sender_loop (opened : bool) (t0 : Q) (cycles : list cycle)
  (s : ScreenSender) : loop * list sender_event :=
  if opened then
    run_cycles cycles
      (mkLoop (mkSender (running s) (thread s) 0 t0) [] true true)
  else (mkLoop s [] false false, [OpenFailed]).

(** The payloads of the images captured, in order. *)
Definition payloads (cycles : list cycle) : list (list byte) :=
  flat_map (fun c => match captured c with
                     | Some image => [jpeg_save image]
                     | None => []
                     end) cycles.

(** A turn in which nothing goes wrong: nobody called [stop()], the
    capture gave an image whose encoding fits the length field, no call on
    the handle raises and the clock has moved since the loop began. *)
Definition clean (t0 : Q) (c : cycle) : Prop :=
  stop_called c = false /\
  failing c = None /\
  ~ (sent_at c == t0)%Q /\
  exists image,
    captured c = Some image /\
    0 <= Z.of_nat (length (jpeg_save image)) <= Wire.max_length.

End WithEncoder.

Arguments stop_called {RawImage} c.
Arguments frame_start {RawImage} c.
Arguments captured {RawImage} c.
Arguments failing {RawImage} c.
Arguments sent_at {RawImage} c.
Arguments done_at {RawImage} c.
Arguments cycle_step {RawImage} jpeg_save c l.
Arguments run_cycles {RawImage} jpeg_save cycles l.
Arguments sender_loop {RawImage} jpeg_save opened t0 cycles s.
Arguments payloads {RawImage} jpeg_save cycles.
Arguments clean {RawImage} jpeg_save t0 c.

(** Projections of the loop's trace. *)
Definition progress_frames (evs : list sender_event) : list Z :=
  flat_map (fun e => match e with
                     | Progress n _ _ _ => [n]
                     | _ => []
                     end) evs.

Definition naps (evs : list sender_event) : list Q :=
  flat_map (fun e => match e with Slept d => [d] | _ => [] end) evs.

Definition total (l : list Q) : Q := fold_right Qplus 0%Q l.

(** A turn for the examples: the image is its own encoding, captured at
    [t], sent a hundredth of a second later and done after a fiftieth. *)
Definition sample_cycle (t : Q) (image : list byte) : cycle (list byte) :=
  mkCycle (list byte) false t (Some image) None
    (t + (1 # 100))%Q (t + (1 # 50))%Q.

End SenderLoop.

(** ** [pc_screen_receiver.py]: [MainWindow] and the thread's messages *)

Module Viewer.

Import String.

Local Open Scope string_scope.

(** Python's [pat in s] on strings. *)
Fixpoint contains (pat s : string) : bool :=
  if prefix pat s then true
  else match s with
       | EmptyString => false
       | String _ s' => contains pat s'
       end.

(** The texts of the three [error_occurred.emit] calls, lines 87, 90 and
    92, with [detail] for [str(e)]. *)
Definition message (e : Receiver.error) (detail : string) : string :=
  match e with
  | Receiver.ProcessingError => "Error processing frame: " ++ detail
  | Receiver.SerialError => "Serial error: " ++ detail
  | Receiver.UnexpectedError => "Unexpected error: " ++ detail
  end.

(** A [FrameReceiverThread] as the window sees it, lines 32-37. *)
Record thread := mkThread {
  port_name : string;
  running : bool
}.

(** What the window does to threads: [FrameReceiverThread(port).start()]
    and [stop()]. *)
Inductive thread_call :=
| Started (port : string)
| Stopped (port : string).

Inductive button_text :=
| StartReceiving
| StopReceiving.

Inductive dialog :=
| ConnectionError      (* line 265 *)
| NoImageToSave.       (* line 333 *)

Section WithImage.

Variable Image : Type.

(** The attributes and widgets the handlers below read and write.
    [connection_label] is [Some port] for "Connected to port" and [None]
    for "Disconnected"; [fps_label] is [None] for "FPS: --". *)
Record MainWindow := mkWindow {
  receiver_thread : option thread;
  current_image : option Image;
  port_combo : string;
  connect_button : button_text;
  connection_label : option string;
  fps_label : option Q;
  screenshot_enabled : bool;
  display_shown : bool;
  status_bar : option string;
  dialogs : list dialog;
  thread_calls : list thread_call
}.

(** [__init__] and [init_ui], lines 104-230, with [port] selected. *)
Definition new_window (port : string) : MainWindow :=
  mkWindow None None port StartReceiving None None false false None
    nil nil.

(** [connect_to_port], lines 260-283. *)
Definition connect_to_port (w : MainWindow) : MainWindow :=
  let port := port_combo w in
  if (port =? EmptyString) || (port =? "No ports available") then
    mkWindow (receiver_thread w) (current_image w) (port_combo w)
      (connect_button w) (connection_label w) (fps_label w)
      (screenshot_enabled w) (display_shown w) (status_bar w)
      (dialogs w ++ ConnectionError :: nil)%list (thread_calls w)
  else
    mkWindow (Some (mkThread port false)) (current_image w) (port_combo w)
      StopReceiving (Some port) (fps_label w) true true (status_bar w)
      (dialogs w) (thread_calls w ++ Started port :: nil)%list.

(** [disconnect_port], lines 285-300. *)
Definition disconnect_port (w : MainWindow) : MainWindow :=
  mkWindow None (current_image w) (port_combo w) StartReceiving None None
    false false (status_bar w) (dialogs w)
    match receiver_thread w with
    | Some t => (thread_calls w ++ Stopped (port_name t) :: nil)%list
    | None => thread_calls w
    end.

(** [toggle_connection], lines 253-258. *)
Definition toggle_connection (w : MainWindow) : MainWindow :=
  match receiver_thread w with
  | Some t => if running t then disconnect_port w else connect_to_port w
  | None => connect_to_port w
  end.

(** [handle_error], lines 322-328. *)
Definition handle_error (error_message : string) (w : MainWindow)
  : MainWindow :=
  let w1 :=
    mkWindow (receiver_thread w) (current_image w) (port_combo w)
      (connect_button w) (connection_label w) (fps_label w)
      (screenshot_enabled w) (display_shown w) (Some error_message)
      (dialogs w) (thread_calls w) in
  if contains "Serial error" error_message then disconnect_port w1 else w1.

(** [update_fps], lines 318-320. *)
Definition update_fps (fps : Q) (w : MainWindow) : MainWindow :=
  mkWindow (receiver_thread w) (current_image w) (port_combo w)
    (connect_button w) (connection_label w) (Some fps)
    (screenshot_enabled w) (display_shown w) (status_bar w)
    (dialogs w) (thread_calls w).

(** [update_frame], lines 302-316. *)
Definition update_frame (image : Image) (w : MainWindow) : MainWindow :=
  mkWindow (receiver_thread w) (Some image) (port_combo w)
    (connect_button w) (connection_label w) (fps_label w)
    (screenshot_enabled w) (display_shown w) (status_bar w)
    (dialogs w) (thread_calls w).

(** The thread's signals as the window's slots take them, lines 270-272. *)
Definition deliver (detail : string) (e : Receiver.event Image)
  (w : MainWindow) : MainWindow :=
  match e with
  | Receiver.EvFrame image => update_frame image w
  | Receiver.EvFps fps => update_fps fps w
  | Receiver.EvError err => handle_error (message err detail) w
  | _ => w
  end.

End WithImage.

Arguments receiver_thread {Image} m.
Arguments current_image {Image} m.
Arguments port_combo {Image} m.
Arguments connect_button {Image} m.
Arguments connection_label {Image} m.
Arguments fps_label {Image} m.
Arguments screenshot_enabled {Image} m.
Arguments display_shown {Image} m.
Arguments status_bar {Image} m.
Arguments dialogs {Image} m.
Arguments thread_calls {Image} m.
Arguments connect_to_port {Image} w.
Arguments disconnect_port {Image} w.
Arguments toggle_connection {Image} w.
Arguments handle_error {Image} error_message w.
Arguments update_fps {Image} fps w.
Arguments update_frame {Image} image w.
Arguments deliver {Image} detail e w.

End Viewer.

(** * Properties *)

(** ** The length field *)

Module WireFacts.

Import Wire.

Lemma Z_of_byte_of_Z (z : Z) : Z_of_byte (byte_of_Z z) = z mod 256.
Proof.
  unfold Z_of_byte, byte_of_Z.
  assert (Hr : 0 <= z mod 256 < 256) by (apply Z.mod_pos_bound; lia).
  destruct (Byte.of_N (Z.to_N (z mod 256))) as [b|] eqn:E.
  - apply Byte.to_of_N in E. rewrite E. lia.
  - apply Byte.of_N_None_iff in E. lia.
Qed.

Lemma Z_of_byte_range (b : byte) : 0 <= Z_of_byte b < 256.
Proof.
  unfold Z_of_byte. pose proof (Byte.to_N_bounded b). lia.
Qed.

Lemma pack_be32_some (n : Z) :
  0 <= n <= max_length -> exists h, pack_be32 n = Some h.
Proof.
  unfold max_length, pack_be32. intros Hn.
  replace (0 <=? n) with true by (symmetry; apply Z.leb_le; lia).
  replace (n <? 2 ^ 32) with true by (symmetry; apply Z.ltb_lt; lia).
  simpl. eauto.
Qed.

Lemma pack_be32_range (n : Z) (h : list byte) :
  pack_be32 n = Some h -> 0 <= n <= max_length.
Proof.
  unfold max_length, pack_be32.
  destruct (0 <=? n) eqn:E1; [|discriminate].
  destruct (n <? 2 ^ 32) eqn:E2; [|discriminate].
  intros _. apply Z.leb_le in E1. apply Z.ltb_lt in E2. lia.
Qed.

Lemma pack_be32_length (n : Z) (h : list byte) :
  pack_be32 n = Some h -> length h = 4%nat.
Proof.
  unfold pack_be32. destruct ((0 <=? n) && (n <? 2 ^ 32)); [|discriminate].
  intros E. injection E as <-. reflexivity.
Qed.

Lemma unpack_pack_be32 (n : Z) (h : list byte) :
  pack_be32 n = Some h -> unpack_be32 h = Some n.
Proof.
  intros E. pose proof (pack_be32_range _ _ E) as Hn.
  unfold max_length in Hn. unfold pack_be32 in E.
  destruct ((0 <=? n) && (n <? 2 ^ 32)); [|discriminate].
  injection E as <-. unfold unpack_be32. f_equal.
  rewrite !Z_of_byte_of_Z.
  change (2 ^ 24) with 16777216. change (2 ^ 16) with 65536.
  change (2 ^ 8) with 256. change (2 ^ 32) with 4294967296 in Hn.
  Z.to_euclidean_division_equations. lia.
Qed.

End WireFacts.

(** ** Reads on the line *)

Module SerialFacts.

Import Serial.

Lemma read_length (size : Z) (p p' : port) (d : list byte) :
  0 <= size -> read size p = (Data d, p') -> Z.of_nat (length d) <= size.
Proof.
  intros Hs. destruct p as [|[c|] ds]; simpl; intros E; inversion E; subst.
  - simpl. lia.
  - pose proof (firstn_le_length (Z.to_nat size) c). rewrite length_firstn. lia.
Qed.

(** A read that asks for no more than the head delivery holds gets exactly
    what it asked for, and the rest of the delivery stays at the head. *)
Lemma read_push (a b : list byte) (ds : port) :
  read (Z.of_nat (length a)) (push (a ++ b) ds)
  = (Data a, push b ds) \/ a = [].
Proof.
  destruct a as [|x a]; [now right|left].
  cbn [app push read]. rewrite Nat2Z.id.
  change (x :: a ++ b) with ((x :: a) ++ b).
  rewrite firstn_app, skipn_app, Nat.sub_diag, firstn_all, skipn_all.
  simpl. now rewrite app_nil_r.
Qed.

Lemma read_prefix (n : nat) (l rest : list byte) (ds : port) :
  (0 < n <= length l)%nat ->
  read (Z.of_nat n) (push (l ++ rest) ds)
  = (Data (firstn n l), push (skipn n l ++ rest) ds).
Proof.
  intros Hn.
  rewrite <- (firstn_skipn n l) at 1. rewrite <- app_assoc.
  assert (Hlen : length (firstn n l) = n) by (rewrite length_firstn; lia).
  destruct (read_push (firstn n l) (skipn n l ++ rest) ds) as [E|E].
  - now rewrite Hlen in E.
  - rewrite E in Hlen. simpl in Hlen. lia.
Qed.

End SerialFacts.

(** ** The receiver's steps *)

Module ReceiverFacts.

Import Serial Receiver.

Section WithDecoder.

Variable Image : Type.
Variable image_open : list byte -> option Image.

Lemma run_app (ins1 ins2 : list input) (s : state) :
  run image_open (ins1 ++ ins2) s
  = let (s1, evs1) := run image_open ins1 s in
    let (s2, evs2) := run image_open ins2 s1 in
    (s2, evs1 ++ evs2).
Proof.
  revert s. induction ins1 as [|i ins1 IH]; intros s; simpl.
  - now destruct (run image_open ins2 s).
  - destruct (step image_open i s) as [s1 e1]. rewrite IH.
    destruct (run image_open ins1 s1) as [s2 e2].
    destruct (run image_open ins2 s2) as [s3 e3].
    now rewrite app_assoc.
Qed.

Lemma run_one (i : input) (s : state) :
  run image_open [i] s = step image_open i s.
Proof.
  simpl. destruct (step image_open i s) as [s1 e1]. now rewrite app_nil_r.
Qed.

Lemma decoded_app (a b : list (event Image)) :
  decoded (a ++ b) = decoded a ++ decoded b.
Proof. apply flat_map_app. Qed.

Lemma errors_app (a b : list (event Image)) :
  errors (a ++ b) = errors a ++ errors b.
Proof. apply flat_map_app. Qed.

Lemma frames_app (a b : list (event Image)) :
  frames (a ++ b) = frames a ++ frames b.
Proof. apply flat_map_app. Qed.

Lemma all_running_cons (i : input) (ins : list input) :
  all_running (i :: ins) -> running i = true /\ all_running ins.
Proof. intros H. inversion H; subst. now split. Qed.

Lemma all_running_app (a b : list input) :
  all_running (a ++ b) -> all_running a /\ all_running b.
Proof. unfold all_running. apply Forall_app. Qed.

Lemma all_running_steady (n : nat) (t : Q) : all_running (steady n t).
Proof.
  unfold all_running, steady. apply Forall_forall.
  intros i Hi. apply repeat_spec in Hi. now subst.
Qed.

Lemma goto_same (s : state) :
  goto (pc s) (serial_port s) s = s.
Proof. now destruct s. Qed.

(** The line is idle and nobody asks the thread to stop: it polls for a
    header, again and again, and nothing else is seen. *)
Lemma idle_run (ins : list input) (s : state) :
  pc s = AwaitingHeader -> serial_port s = [] -> all_running ins ->
  run image_open ins s = (s, repeat (EvRead 4) (length ins)).
Proof.
  intros Hpc Hport. induction ins as [|i ins IH]; intros Hrun; [reflexivity|].
  apply all_running_cons in Hrun as [Hi Hrun].
  assert (Es : step image_open i s = (s, [EvRead 4])).
  { unfold step. rewrite Hpc, Hi, Hport. simpl.
    now rewrite <- Hpc, <- Hport, goto_same. }
  cbn [run]. now rewrite Es, (IH Hrun).
Qed.

Lemma silent_repeat_read (n : nat) (size : Z) :
  decoded (repeat (@EvRead Image size) n) = [] /\
  errors (repeat (@EvRead Image size) n) = [] /\
  frames (repeat (@EvRead Image size) n) = [].
Proof. induction n; simpl; auto. Qed.

Lemma clock_ok_goto (c : control) (p : port) (s : state) :
  clock_ok s -> clock_ok (goto c p s).
Proof. exact (fun H => H). Qed.

Lemma clock_ok_init (p : port) (t0 : Q) : clock_ok (init p t0).
Proof. apply Qle_refl. Qed.

(** With the last report not older than the session, a report that is due
    never divides by zero. *)
Lemma elapsed_nonzero (i : input) (s : state) :
  clock_ok s ->
  Qle_bool 1 (now i - last_fps_update s) = true ->
  Qeq_bool (now i - start_time s) 0 = false.
Proof.
  unfold clock_ok. intros Hc Hd. apply Qle_bool_iff in Hd.
  destruct (Qeq_bool (now i - start_time s) 0) eqn:E; [|reflexivity].
  apply Qeq_bool_iff in E. lra.
Qed.

Lemma after_loop_clock_ok (i : input) (p : port) (s : state)
  (L : Z) (data : list byte) :
  clock_ok s -> clock_ok (fst (after_loop image_open i p s L data)).
Proof.
  intros Hc. unfold after_loop.
  destruct (Z.of_nat (length data) =? L); [|exact Hc].
  destruct (image_open data) as [im|]; [|exact Hc].
  destruct (Qle_bool 1 (now i - last_fps_update s)) eqn:Ed; [|exact Hc].
  rewrite (elapsed_nonzero i s Hc Ed). unfold clock_ok in *. simpl.
  apply Qle_bool_iff in Ed. lra.
Qed.

Lemma after_loop_complete (i : input) (p : port) (s s' : state)
  (L : Z) (data : list byte) (evs : list (event Image)) :
  clock_ok s ->
  Z.of_nat (length data) = L ->
  after_loop image_open i p s L data = (s', evs) ->
  took_in image_open s' evs data p.
Proof.
  intros Hc HL E.
  pose proof (after_loop_clock_ok i p s L data Hc) as Hc'.
  rewrite E in Hc'. simpl in Hc'. revert E.
  unfold after_loop, took_in. rewrite HL, Z.eqb_refl.
  destruct (image_open data) as [im|].
  - destruct (Qle_bool 1 (now i - last_fps_update s)) eqn:Ed.
    + rewrite (elapsed_nonzero i s Hc Ed).
      intros E; inversion E; subst; simpl; repeat split; auto.
    + intros E; inversion E; subst; simpl; repeat split; auto.
  - intros E; inversion E; subst; simpl; repeat split; auto.
Qed.

Lemma took_in_after_read (s' : state) (evs : list (event Image))
  (data : list byte) (p : port) (size : Z) :
  took_in image_open s' evs data p ->
  took_in image_open s' (EvRead size :: evs) data p.
Proof. unfold took_in. simpl. intuition. Qed.

(** The header of an envelope is at the head of the line in one piece. *)
Lemma header_step (i : input) (s : state) (L : Z)
  (h rest : list byte) (ds : port) :
  pc s = AwaitingHeader ->
  serial_port s = push (h ++ rest) ds ->
  Wire.pack_be32 L = Some h ->
  running i = true ->
  step image_open i s
  = (goto (AwaitingPayload L [] L) (push rest ds) s, [EvRead 4]).
Proof.
  intros Hpc Hport Hh Hi. unfold step. rewrite Hpc, Hi, Hport.
  pose proof (WireFacts.pack_be32_length _ _ Hh) as Hlen.
  destruct (SerialFacts.read_push h rest ds) as [E|E];
    [|subst h; discriminate].
  rewrite Hlen in E. change (Z.of_nat 4) with 4 in E. rewrite E.
  rewrite Hlen. simpl Nat.ltb. cbv iota.
  now rewrite (WireFacts.unpack_pack_be32 _ _ Hh).
Qed.

(** One turn of the inner loop with payload bytes at the head of the line. *)
Lemma payload_step (i : input) (s : state) (L : Z)
  (acc P rest : list byte) (ds : port) :
  pc s = AwaitingPayload L acc (Z.of_nat (length P)) ->
  serial_port s = push (P ++ rest) ds ->
  running i = true ->
  P <> [] ->
  exists n, (0 < n <= length P)%nat /\
    Z.of_nat n = Z.min (Z.of_nat (length P)) 4096 /\
    step image_open i s
    = (goto (AwaitingPayload L (acc ++ firstn n P)
               (Z.of_nat (length (skipn n P))))
         (push (skipn n P ++ rest) ds) s,
       [EvRead (Z.of_nat n)]).
Proof.
  intros Hpc Hport Hi HP.
  assert (HlenP : (0 < length P)%nat) by (destruct P; simpl; [easy|lia]).
  exists (Z.to_nat (Z.min (Z.of_nat (length P)) 4096)).
  set (n := Z.to_nat _).
  assert (Hn : Z.of_nat n = Z.min (Z.of_nat (length P)) 4096) by lia.
  assert (Hn' : (0 < n <= length P)%nat) by lia.
  split; [exact Hn'|]. split; [exact Hn|].
  unfold step. rewrite Hpc, Hi, Hport.
  replace (0 <? Z.of_nat (length P)) with true
    by (symmetry; apply Z.ltb_lt; lia).
  cbv [andb]. cbv zeta. rewrite <- Hn.
  rewrite (SerialFacts.read_prefix n P rest ds Hn').
  assert (Hf : length (firstn n P) = n) by (rewrite length_firstn; lia).
  destruct (firstn n P) as [|b chunk] eqn:Ef; [simpl in Hf; lia|].
  rewrite Hf, length_skipn. do 3 f_equal. lia.
Qed.

(** The inner loop, with what is left of the payload at the head of the
    line: it collects the bytes and hands the whole payload over. *)
Lemma payload_phase (ins : list input) :
  forall (P : list byte) (L : Z) (acc rest : list byte) (ds : port)
         (s : state),
  pc s = AwaitingPayload L acc (Z.of_nat (length P)) ->
  serial_port s = push (P ++ rest) ds ->
  clock_ok s ->
  Z.of_nat (length (acc ++ P)) = L ->
  all_running ins ->
  (length P + 1 <= length ins)%nat ->
  exists ins1 ins2 s' evs,
    ins = ins1 ++ ins2 /\ (length ins1 <= length P + 1)%nat /\
    run image_open ins1 s = (s', evs) /\
    took_in image_open s' evs (acc ++ P) (push rest ds).
Proof.
  induction ins as [|i ins IH];
    intros P L acc rest ds s Hpc Hport Hc HL Hrun Hfuel;
    [simpl in Hfuel; lia|].
  apply all_running_cons in Hrun as [Hi Hrun].
  destruct (list_eq_dec Byte.byte_eq_dec P []) as [->|HP].
  - destruct (step image_open i s) as [s' evs] eqn:Es.
    exists [i], ins, s', evs.
    split; [reflexivity|]. split; [simpl; lia|].
    split; [now rewrite run_one|].
    unfold step in Es. rewrite Hpc in Es. simpl in Es.
    rewrite app_nil_r in *. rewrite Hport in Es. simpl in Es.
    eapply after_loop_complete; eassumption.
  - destruct (payload_step i s L acc P rest ds Hpc Hport Hi HP)
      as (n & Hn & _ & Es).
    set (s1 := goto _ _ s) in Es.
    destruct (IH (skipn n P) L (acc ++ firstn n P) rest ds s1)
      as (ins1 & ins2 & s' & evs & Hsplit & Hlen & Er & Ht);
      try reflexivity; try assumption.
    + now rewrite <- app_assoc, firstn_skipn.
    + rewrite length_skipn. simpl in Hfuel. lia.
    + exists (i :: ins1), ins2, s', (EvRead (Z.of_nat n) :: evs).
      split; [simpl; now rewrite Hsplit|].
      split; [rewrite length_skipn in Hlen; simpl; lia|].
      split; [simpl; now rewrite Es, Er|].
      apply took_in_after_read.
      now rewrite <- app_assoc, firstn_skipn in Ht.
Qed.

(** A whole envelope at the head of the line, whatever follows it: the
    thread reads the header, collects the payload, hands it over and is back
    at the outer test with what followed the envelope on the line. *)
Lemma receive_envelope (ins : list input) (P h rest : list byte)
  (ds : port) (s : state) :
  pc s = AwaitingHeader ->
  serial_port s = push (h ++ P ++ rest) ds ->
  clock_ok s ->
  Wire.pack_be32 (Z.of_nat (length P)) = Some h ->
  all_running ins ->
  (length P + 2 <= length ins)%nat ->
  exists ins1 ins2 s' evs,
    ins = ins1 ++ ins2 /\ (length ins1 <= length P + 2)%nat /\
    run image_open ins1 s = (s', evs) /\
    took_in image_open s' evs P (push rest ds).
Proof.
  intros Hpc Hport Hc Hh Hrun Hfuel.
  destruct ins as [|i ins]; [simpl in Hfuel; lia|].
  apply all_running_cons in Hrun as [Hi Hrun].
  pose proof (header_step i s _ h (P ++ rest) ds Hpc Hport Hh Hi) as Es.
  set (s1 := goto _ _ s) in Es.
  destruct (payload_phase ins P (Z.of_nat (length P)) [] rest ds s1)
    as (ins1 & ins2 & s' & evs & Hsplit & Hlen & Er & Ht);
    try reflexivity; try assumption.
  - simpl in Hfuel. lia.
  - exists (i :: ins1), ins2, s', (EvRead 4 :: evs).
    split; [simpl; now rewrite Hsplit|].
    split; [simpl; lia|].
    split; [simpl; now rewrite Es, Er|].
    now apply took_in_after_read.
Qed.

(** The same, run on to the end of the inputs on a line that carries
    nothing after the envelope. *)
Lemma receive_last_envelope (ins : list input) (P h : list byte) (s : state) :
  pc s = AwaitingHeader ->
  serial_port s = push (h ++ P) [] ->
  clock_ok s ->
  Wire.pack_be32 (Z.of_nat (length P)) = Some h ->
  all_running ins ->
  (length P + 2 <= length ins)%nat ->
  exists s' evs,
    run image_open ins s = (s', evs) /\
    took_in image_open s' evs P [].
Proof.
  intros Hpc Hport Hc Hh Hrun Hfuel.
  rewrite <- (app_nil_r P) in Hport.
  destruct (receive_envelope ins P h [] [] s Hpc Hport Hc Hh Hrun Hfuel)
    as (ins1 & ins2 & s' & evs & -> & _ & Er & Ht).
  apply all_running_app in Hrun as [_ Hrun2].
  destruct Ht as (Hpc' & Hport' & Hc' & Hd & He & Hf).
  simpl in Hport'.
  exists s', (evs ++ repeat (EvRead 4) (length ins2)).
  split.
  - now rewrite run_app, Er, (idle_run ins2 s' Hpc' Hport' Hrun2).
  - destruct (silent_repeat_read (length ins2) 4) as (Sd & Se & Sf).
    unfold took_in.
    rewrite decoded_app, errors_app, frames_app, Sd, Se, Sf, !app_nil_r.
    repeat split; assumption.
Qed.

(** What a read leaves of a delivery is a delivery again, or nothing. *)
Lemma push_chunks (r : list byte) (cs : list (list byte)) (ds : port) :
  Forall (fun c => c <> []) cs ->
  exists cs',
    push r (map Chunk cs ++ ds) = map Chunk cs' ++ ds /\
    concat cs' = r ++ concat cs /\
    Forall (fun c => c <> []) cs'.
Proof.
  intros Hcs. destruct r as [|b r].
  - exists cs. auto.
  - exists ((b :: r) :: cs).
    split; [reflexivity|]. split; [reflexivity|].
    constructor; [discriminate|assumption].
Qed.

(** The inner loop with the rest of the payload spread over any number of
    deliveries, none of them empty: it collects them all, however they are
    cut. *)
Lemma payload_chunks (ins : list input) :
  forall (cs : list (list byte)) (L : Z) (acc : list byte) (ds : port)
         (s : state),
  pc s = AwaitingPayload L acc (Z.of_nat (length (concat cs))) ->
  serial_port s = map Chunk cs ++ ds ->
  Forall (fun c => c <> []) cs ->
  clock_ok s ->
  Z.of_nat (length (acc ++ concat cs)) = L ->
  all_running ins ->
  (length (concat cs) + 1 <= length ins)%nat ->
  exists ins1 ins2 s' evs,
    ins = ins1 ++ ins2 /\ (length ins1 <= length (concat cs) + 1)%nat /\
    run image_open ins1 s = (s', evs) /\
    took_in image_open s' evs (acc ++ concat cs) ds.
Proof.
  induction ins as [|i ins IH];
    intros cs L acc ds s Hpc Hport Hcs Hc HL Hrun Hfuel;
    [simpl in Hfuel; lia|].
  apply all_running_cons in Hrun as [Hi Hrun].
  destruct cs as [|c cs].
  - destruct (step image_open i s) as [s' evs] eqn:Es.
    exists [i], ins, s', evs.
    split; [reflexivity|]. split; [simpl; lia|].
    split; [now rewrite run_one|].
    unfold step in Es. rewrite Hpc in Es. simpl in Es, Hport, HL |- *.
    rewrite app_nil_r in *. rewrite Hport in Es.
    eapply after_loop_complete; eassumption.
  - apply Forall_cons_iff in Hcs as [Hne Hcs'].
    assert (Hlenc : (0 < length c)%nat)
      by (destruct c; [contradiction|simpl; lia]).
    simpl concat in *. set (rem := length (c ++ concat cs)) in *.
    assert (Hrem : (length c <= rem)%nat)
      by (unfold rem; rewrite length_app; lia).
    set (n := Z.to_nat (Z.min (Z.of_nat rem) 4096)).
    assert (Hn : Z.of_nat n = Z.min (Z.of_nat rem) 4096) by lia.
    assert (Hn' : (0 < n <= rem)%nat) by lia.
    destruct (push_chunks (skipn n c) cs ds Hcs')
      as (cs' & Hpush & Hcat & Hcs'').
    assert (Hk : (0 < length (firstn n c) <= length c)%nat)
      by (rewrite length_firstn; lia).
    assert (Hsplit : (length (firstn n c) + length (skipn n c))%nat
                     = length c)
      by (rewrite <- length_app, firstn_skipn; reflexivity).
    assert (Hrem' : length (concat cs')
                    = (rem - length (firstn n c))%nat).
    { rewrite Hcat. unfold rem. rewrite !length_app. lia. }
    assert (Es : step image_open i s
                 = (goto (AwaitingPayload L (acc ++ firstn n c)
                            (Z.of_nat (length (concat cs'))))
                      (map Chunk cs' ++ ds) s,
                    [EvRead (Z.of_nat n)])).
    { unfold step. rewrite Hpc, Hi, Hport.
      replace (0 <? Z.of_nat rem) with true
        by (symmetry; apply Z.ltb_lt; lia).
      cbv [andb]. cbv zeta. rewrite <- Hn.
      cbn [map app read]. rewrite Nat2Z.id, Hpush.
      destruct (firstn n c) as [|b chunk] eqn:Ef; [simpl in Hk; lia|].
      rewrite Hrem'. do 3 f_equal. lia. }
    set (s1 := goto _ _ s) in Es.
    destruct (IH cs' L (acc ++ firstn n c) ds s1)
      as (ins1 & ins2 & s' & evs & Hins & Hlen & Er & Ht);
      try reflexivity; try assumption.
    + rewrite Hcat, <- !app_assoc, (app_assoc (firstn n c)), firstn_skipn.
      exact HL.
    + simpl in Hfuel. lia.
    + exists (i :: ins1), ins2, s', (EvRead (Z.of_nat n) :: evs).
      split; [simpl; now rewrite Hins|].
      split; [simpl; lia|].
      split; [simpl; now rewrite Es, Er|].
      apply took_in_after_read.
      now rewrite Hcat, <- !app_assoc, (app_assoc (firstn n c)),
        firstn_skipn in Ht.
Qed.

(** Cutting the payload does no harm.  The header arrives in one piece,
    alone or with the first bytes [c0] of the payload, and the rest of the
    payload in any number of non-empty deliveries: the decoder is handed
    the payload, as when the envelope arrives whole. *)
Lemma payload_chunking_harmless
  (P h c0 : list byte) (cs : list (list byte)) (ins : list input) (t0 : Q) :
  Wire.pack_be32 (Z.of_nat (length P)) = Some h ->
  c0 ++ concat cs = P ->
  Forall (fun c => c <> []) cs ->
  all_running ins ->
  (length P + 2 <= length ins)%nat ->
  decoded (snd (run image_open ins
                  (init (Chunk (h ++ c0) :: map Chunk cs) t0)))
  = [P].
Proof.
  intros Hh HP Hcs Hrun Hfuel.
  destruct ins as [|i ins]; [simpl in Hfuel; lia|].
  apply all_running_cons in Hrun as [Hi Hrun].
  set (s0 := init (Chunk (h ++ c0) :: map Chunk cs) t0).
  assert (Hport : serial_port s0 = push (h ++ c0) (map Chunk cs ++ [])).
  { pose proof (WireFacts.pack_be32_length _ _ Hh) as Hlen.
    rewrite app_nil_r. destruct h; [discriminate|reflexivity]. }
  pose proof (header_step i s0 _ h c0 _ eq_refl Hport Hh Hi) as Es.
  destruct (push_chunks c0 cs [] Hcs) as (cs' & Hpush & Hcat & Hcs').
  rewrite Hpush, <- HP, <- Hcat in Es.
  set (s1 := goto _ _ s0) in Es.
  destruct (payload_chunks ins cs' (Z.of_nat (length (concat cs'))) [] [] s1)
    as (ins1 & ins2 & s' & evs & -> & _ & Er & Ht);
    try reflexivity; try assumption.
  { apply clock_ok_init. }
  { rewrite Hcat, HP. simpl in Hfuel. lia. }
  apply all_running_app in Hrun as [_ Hrun2].
  destruct Ht as (Hpc' & Hport' & _ & Hd & _).
  cbn [run]. rewrite Es, run_app, Er.
  rewrite (idle_run ins2 s' Hpc' Hport' Hrun2). cbn [snd].
  rewrite !decoded_app, Hd.
  destruct (silent_repeat_read (length ins2) 4) as (-> & _).
  simpl. now rewrite Hcat, HP.
Qed.

(** Once the line has been read to the end the trace only grows by
    polls. *)
Lemma run_then_idle (k n : nat) (t : Q) (s s' : state)
  (evs : list (event Image)) :
  run image_open (steady k t) s = (s', evs) ->
  pc s' = AwaitingHeader ->
  serial_port s' = [] ->
  run image_open (steady (k + n) t) s
  = (s', evs ++ repeat (EvRead 4) n).
Proof.
  intros Er Hpc Hport.
  assert (Hsplit : steady (k + n) t = steady k t ++ steady n t)
    by apply repeat_app.
  rewrite Hsplit, run_app, Er.
  rewrite (idle_run _ s' Hpc Hport (all_running_steady n t)).
  unfold steady. now rewrite repeat_length.
Qed.

End WithDecoder.

End ReceiverFacts.

(** ** Single steps, case by case *)

Module StepFacts.

Import Serial Receiver.

Lemma unpack_be32_range (h : list byte) (L : Z) :
  Wire.unpack_be32 h = Some L -> 0 <= L <= Wire.max_length.
Proof.
  destruct h as [|b0 [|b1 [|b2 [|b3 [|]]]]]; try discriminate.
  simpl. intros E. injection E as <-. unfold Wire.max_length.
  pose proof (WireFacts.Z_of_byte_range b0).
  pose proof (WireFacts.Z_of_byte_range b1).
  pose proof (WireFacts.Z_of_byte_range b2).
  pose proof (WireFacts.Z_of_byte_range b3).
  change (2 ^ 32) with 4294967296. lia.
Qed.

Lemma unpack_be32_length (h : list byte) (L : Z) :
  Wire.unpack_be32 h = Some L -> length h = 4%nat.
Proof.
  destruct h as [|b0 [|b1 [|b2 [|b3 [|]]]]]; try discriminate. reflexivity.
Qed.

Section WithDecoder.

Variable Image : Type.
Variable image_open : list byte -> option Image.

Ltac after_loop_cases i s L data :=
  unfold after_loop;
  destruct (Z.of_nat (length data) =? L) eqn:Hfull;
  [ destruct (image_open data) as [im|] eqn:Hopen;
    [ destruct (Qle_bool 1 (now i - last_fps_update s)) eqn:Hdue;
      [ destruct (Qeq_bool (now i - start_time s) 0) eqn:Hzero | ] | ] | ].

Lemma after_loop_pc (i : input) (p : port) (s : state)
  (L : Z) (data : list byte) :
  pc (fst (after_loop image_open i p s L data)) = AwaitingHeader.
Proof. after_loop_cases i s L data; reflexivity. Qed.

Lemma after_loop_port (i : input) (p : port) (s : state)
  (L : Z) (data : list byte) :
  serial_port (fst (after_loop image_open i p s L data)) = p.
Proof. after_loop_cases i s L data; reflexivity. Qed.

Lemma after_loop_reads (i : input) (p : port) (s : state)
  (L : Z) (data : list byte) :
  reads (snd (after_loop image_open i p s L data)) = [].
Proof. after_loop_cases i s L data; reflexivity. Qed.

(** The decoder sees the collected bytes when, and only when, they are as
    many as the header declared. *)
Lemma after_loop_decoded (i : input) (p : port) (s : state)
  (L : Z) (data : list byte) :
  decoded (snd (after_loop image_open i p s L data))
  = if Z.of_nat (length data) =? L then [data] else [].
Proof. after_loop_cases i s L data; reflexivity. Qed.

Lemma after_loop_frames_short (i : input) (p : port) (s : state)
  (L : Z) (data : list byte) :
  Z.of_nat (length data) <> L ->
  after_loop image_open i p s L data = (goto AwaitingHeader p s, []).
Proof.
  intros Hne. unfold after_loop.
  now destruct (Z.eqb_spec (Z.of_nat (length data)) L).
Qed.

(** The count of frames and the rate report after the inner loop. *)
Lemma after_loop_rate (i : input) (p : port) (s : state)
  (L : Z) (data : list byte) :
  let s' := fst (after_loop image_open i p s L data) in
  let evs := snd (after_loop image_open i p s L data) in
  frames_received s'
  = frames_received s + Z.of_nat (length (frames evs)) /\
  start_time s' = start_time s /\
  ((rates evs = [] /\ last_fps_update s' = last_fps_update s) \/
   (rates evs
    = [(inject_Z (frames_received s') / (now i - start_time s))%Q] /\
    (1 <= now i - last_fps_update s)%Q /\
    last_fps_update s' = now i /\
    length (frames evs) = 1%nat)).
Proof.
  after_loop_cases i s L data; simpl;
    (split; [lia|]); (split; [reflexivity|]);
    try (left; split; reflexivity).
  right. apply Qle_bool_iff in Hdue. repeat split; assumption || reflexivity.
Qed.

(** Every way through one step. *)
Ltac step_cases i s :=
  unfold step;
  let L := fresh "L" in
  let acc := fresh "acc" in
  let rem := fresh "rem" in
  destruct (pc s) as [|L acc rem|] eqn:Hpc;
  [ destruct (running i) eqn:Hi;
    [ destruct (read 4 (serial_port s)) as [[d|] p] eqn:Hread;
      [ destruct (length d <? 4)%nat eqn:Hshort;
        [ | let L := fresh "L" in
            destruct (Wire.unpack_be32 d) as [L|] eqn:Hunpack ]
      | ]
    | ]
  | destruct ((0 <? rem) && running i) eqn:Hguard; cbv zeta;
    [ destruct (read (Z.min rem 4096) (serial_port s))
        as [[[|b chunk]|] p] eqn:Hread;
      [ destruct (after_loop image_open i p s L acc) as [s' evs] eqn:Hafter
      | | ]
    | ]
  | ].

Lemma step_clock_ok (i : input) (s : state) :
  clock_ok s -> clock_ok (fst (step image_open i s)).
Proof.
  intros Hc. step_cases i s; try exact Hc.
  - pose proof (ReceiverFacts.after_loop_clock_ok Image image_open
                  i p s L acc Hc) as H.
    now rewrite Hafter in H.
  - now apply ReceiverFacts.after_loop_clock_ok.
Qed.

(** The invariant of the inner loop is kept by every step. *)
Lemma step_payload_inv (i : input) (s : state) :
  payload_inv s -> payload_inv (fst (step image_open i s)).
Proof.
  unfold payload_inv at 1. step_cases i s; intros Hinv;
    unfold payload_inv; simpl; try exact I.
  - apply unpack_be32_range in Hunpack. lia.
  - pose proof (after_loop_pc i p s L acc) as H.
    rewrite Hafter in H. simpl in H. now rewrite H.
  - apply andb_true_iff in Hguard as [Hrem _]. apply Z.ltb_lt in Hrem.
    apply SerialFacts.read_length in Hread; [|lia].
    rewrite length_app. simpl length in *. lia.
  - now rewrite after_loop_pc.
  - now rewrite Hpc.
Qed.

Lemma run_payload_inv (ins : list input) (s : state) :
  payload_inv s -> payload_inv (fst (run image_open ins s)).
Proof.
  revert s. induction ins as [|i ins IH]; intros s Hinv; [exact Hinv|].
  simpl. pose proof (step_payload_inv i s Hinv) as H1.
  destruct (step image_open i s) as [s1 e1]. simpl in H1.
  specialize (IH s1 H1). now destruct (run image_open ins s1).
Qed.

(** What the inner loop asks of the line. *)
Lemma step_read_request (i : input) (s : state)
  (L : Z) (acc : list byte) (rem : Z) :
  pc s = AwaitingPayload L acc rem ->
  reads (snd (step image_open i s))
  = if (0 <? rem) && running i then [Z.min rem 4096] else [].
Proof.
  intros E. step_cases i s; try discriminate;
    injection E as -> -> ->; rewrite Hguard; try reflexivity.
  - simpl. pose proof (after_loop_reads i p s L acc) as H.
    rewrite Hafter in H. simpl in H. now rewrite H.
  - apply after_loop_reads.
Qed.

(** When the inner loop goes round again. *)
Lemma step_in_loop (i : input) (s : state)
  (L : Z) (acc : list byte) (rem : Z) :
  pc s = AwaitingPayload L acc rem ->
  in_payload_loop (fst (step image_open i s))
  = (0 <? rem) && running i
    && brought_bytes (fst (read (Z.min rem 4096) (serial_port s))).
Proof.
  intros E. step_cases i s; try discriminate;
    injection E as -> -> ->; rewrite Hguard; try (rewrite Hread);
    try reflexivity.
  - simpl. pose proof (after_loop_pc i p s L acc) as H.
    rewrite Hafter in H. simpl in H. unfold in_payload_loop. now rewrite H.
  - unfold in_payload_loop. now rewrite after_loop_pc.
Qed.

(** Whatever reaches the decoder was collected by the inner loop and has
    the declared length. *)
Lemma step_decoded (i : input) (s : state) (data : list byte) :
  In data (decoded (snd (step image_open i s))) ->
  exists L rem,
    pc s = AwaitingPayload L data rem /\ Z.of_nat (length data) = L.
Proof.
  step_cases i s; simpl; try tauto.
  - pose proof (after_loop_decoded i p s L acc) as H.
    rewrite Hafter in H. simpl in H. rewrite H.
    destruct (Z.eqb_spec (Z.of_nat (length acc)) L) as [E|E];
      simpl; [|tauto].
    intros [<-|[]]. eauto.
  - rewrite after_loop_decoded.
    destruct (Z.eqb_spec (Z.of_nat (length acc)) L) as [E|E];
      simpl; [|tauto].
    intros [<-|[]]. eauto.
Qed.

(** A header read that comes back short: nothing is signalled, the thread
    stays at the outer test, and the bytes it got are off the line and in
    no variable that survives the [continue]. *)
Lemma short_header_dropped (i : input) (s : state)
  (short : list byte) (ds : port) :
  pc s = AwaitingHeader ->
  running i = true ->
  serial_port s = Chunk short :: ds ->
  (length short < 4)%nat ->
  step image_open i s = (goto AwaitingHeader ds s, [EvRead 4]).
Proof.
  intros Hpc Hi Hport Hlen. unfold step. rewrite Hpc, Hi, Hport.
  cbn [read]. change (Z.to_nat 4) with 4%nat.
  rewrite firstn_all2, skipn_all2 by lia. cbn [push].
  now replace (length short <? 4)%nat with true
    by (symmetry; apply Nat.ltb_lt; lia).
Qed.

(** The count of frames and the rate report, for any step. *)
Lemma step_rate (i : input) (s : state) :
  let s' := fst (step image_open i s) in
  let evs := snd (step image_open i s) in
  frames_received s'
  = frames_received s + Z.of_nat (length (frames evs)) /\
  start_time s' = start_time s /\
  ((rates evs = [] /\ last_fps_update s' = last_fps_update s) \/
   (rates evs
    = [(inject_Z (frames_received s') / (now i - start_time s))%Q] /\
    (1 <= now i - last_fps_update s)%Q /\
    last_fps_update s' = now i /\
    length (frames evs) = 1%nat)).
Proof.
  step_cases i s; simpl;
    try (split; [lia|]; split; [reflexivity|]; left; split; reflexivity).
  - pose proof (after_loop_rate i p s L acc) as H.
    now rewrite Hafter in H.
  - apply after_loop_rate.
Qed.

(** The frame counter is the number of frames delivered so far. *)
Lemma run_frames_count (ins : list input) (s : state) :
  frames_received (fst (run image_open ins s))
  = frames_received s
    + Z.of_nat (length (frames (snd (run image_open ins s)))).
Proof.
  revert s. induction ins as [|i ins IH]; intros s; simpl; [lia|].
  pose proof (step_rate i s) as (Hcount & _).
  destruct (step image_open i s) as [s1 e1]. simpl in Hcount.
  specialize (IH s1). destruct (run image_open ins s1) as [s2 e2].
  simpl in *. rewrite ReceiverFacts.frames_app, length_app. lia.
Qed.

End WithDecoder.

End StepFacts.

(** * The claims *)

(** ** The writer and the pacer *)

(** C7.  Pacing: for a target interval [T] and a cycle that took [d], the
    sleep duration is [T - d] when [d < T] and [0] when [d >= T], that is
    [max(0, T - d)]; the sender's own interval is [1/15] s.  (Times are
    rationals: the statement is exact where the floating-point one holds up
    to rounding.) *)
Theorem pacer_sleep_duration (T d : Q) :
  ((d < T)%Q -> Sender.sleep_time T d = (T - d)%Q) /\
  ((T <= d)%Q -> Sender.sleep_time T d = 0%Q) /\
  (Sender.sleep_time T d == Qmax 0 (T - d))%Q /\
  (Sender.FRAME_INTERVAL == 1 # 15)%Q.
Proof.
  unfold Sender.sleep_time, Sender.py_max.
  destruct (Qlt_le_dec 0 (T - d)) as [Hlt|Hle].
  - split; [reflexivity|].
    split; [intros HTd; exfalso; lra|].
    split; [|reflexivity].
    symmetry. apply Q.max_r. lra.
  - split; [intros HdT; exfalso; lra|].
    split; [reflexivity|].
    split; [|reflexivity].
    symmetry. now apply Q.max_l.
Qed.

Lemma pacer_sleep_duration_witness :
  Sender.sleep_time (1 # 15) (1 # 30) = ((1 # 15) - (1 # 30))%Q /\
  Sender.sleep_time (1 # 15) (1 # 10) = 0%Q.
Proof.
  split.
  - apply (proj1 (pacer_sleep_duration (1 # 15) (1 # 30))). reflexivity.
  - apply (proj1 (proj2 (pacer_sleep_duration (1 # 15) (1 # 10)))).
    unfold Qle. simpl. lia.
Defined.

(** C8.  The writer's send: for every image whose encoded payload has a
    length that fits the four-byte field, the calls made on the handle are,
    in this order and nothing else, a write of the four-byte big-endian
    length, a write of the whole payload, and a flush; the length is what is
    returned. *)
Theorem send_steps_in_order (RawImage : Type)
  (jpeg_save : RawImage -> list byte)
  (serial_conn : list Serial.serial_op) (image : RawImage) :
  0 <= Z.of_nat (length (jpeg_save image)) <= Wire.max_length ->
  exists size_bytes,
    length size_bytes = 4%nat /\
    Wire.unpack_be32 size_bytes = Some (Z.of_nat (length (jpeg_save image))) /\
    Sender.compress_and_send_frame RawImage jpeg_save serial_conn image
    = Some (serial_conn ++ [Serial.Write size_bytes;
                            Serial.Write (jpeg_save image);
                            Serial.Flush],
            Z.of_nat (length (jpeg_save image))).
Proof.
  intros Hlen.
  destruct (WireFacts.pack_be32_some _ Hlen) as [h Hh].
  exists h.
  split; [exact (WireFacts.pack_be32_length _ _ Hh)|].
  split; [exact (WireFacts.unpack_pack_be32 _ _ Hh)|].
  unfold Sender.compress_and_send_frame, Sender.send_jpeg. now rewrite Hh.
Qed.

Lemma send_steps_in_order_witness :
  exists size_bytes,
    length size_bytes = 4%nat /\
    Wire.unpack_be32 size_bytes = Some 3 /\
    Sender.compress_and_send_frame (list byte) (fun im => im) []
      [xff; xd8; xd9]
    = Some ([Serial.Write size_bytes; Serial.Write [xff; xd8; xd9];
             Serial.Flush], 3).
Proof.
  apply (send_steps_in_order (list byte) (fun im => im) [] [xff; xd8; xd9]).
  unfold Wire.max_length. simpl. lia.
Defined.

(** ** The reader *)

Section Reader.

Import Serial Receiver.

Variable Image : Type.
Variable image_open : list byte -> option Image.

(** C1.  Round trip: a payload whose length fits the four-byte field
    ([0 <= len(P) <= 2^32 - 1]) is put on the line by the sender as four
    big-endian length bytes followed by the payload, and the receiver, run
    on that stream for as many steps as the payload has bytes plus two (or
    more), hands exactly that payload, once, to the decode stage. *)
Theorem envelope_roundtrip (P : list byte) (ins : list input) :
  0 <= Z.of_nat (length P) <= Wire.max_length ->
  all_running ins ->
  (length P + 2 <= length ins)%nat ->
  exists h,
    Wire.pack_be32 (Z.of_nat (length P)) = Some h /\
    length h = 4%nat /\
    Sender.encode_envelope P = Some (h ++ P) /\
    decode_envelope image_open ins (h ++ P) = [P].
Proof.
  intros HP Hrun Hfuel.
  destruct (WireFacts.pack_be32_some _ HP) as [h Hh].
  exists h. split; [exact Hh|].
  split; [exact (WireFacts.pack_be32_length _ _ Hh)|].
  split.
  - unfold Sender.encode_envelope, Sender.send_jpeg. rewrite Hh.
    simpl. now rewrite app_nil_r.
  - unfold decode_envelope.
    destruct (ReceiverFacts.receive_last_envelope Image image_open ins P h
                (init (push (h ++ P) []) 0%Q))
      as (s' & evs & Er & Ht); try reflexivity; try assumption.
    + apply ReceiverFacts.clock_ok_init.
    + rewrite Er. simpl. apply Ht.
Qed.

(** C6.  Decode failure recovery: a well-framed envelope whose payload the
    decoder rejects, followed on the line by a well-formed envelope whose
    payload it accepts.  The receiver hands both payloads to the decoder,
    reports exactly one error, the decode failure, delivers the second
    image, and is still in its loop, awaiting the next header on a line it
    has read to the end: of the bad envelope it consumed the four header
    bytes and the declared payload bytes, no more and no less. *)
Theorem decode_failure_recovery
  (B G hB hG rest : list byte) (ds : port) (image : Image)
  (ins : list input) (t0 : Q) :
  Wire.pack_be32 (Z.of_nat (length B)) = Some hB ->
  Wire.pack_be32 (Z.of_nat (length G)) = Some hG ->
  image_open B = None ->
  image_open G = Some image ->
  push rest ds = push (hG ++ G) [] ->
  all_running ins ->
  (length B + length G + 4 <= length ins)%nat ->
  exists s' evs,
    run image_open ins (init (push (hB ++ B ++ rest) ds) t0) = (s', evs) /\
    decoded evs = [B; G] /\
    errors evs = [ProcessingError] /\
    frames evs = [image] /\
    pc s' = AwaitingHeader /\
    serial_port s' = [].
Proof.
  intros HhB HhG HB HG Hnext Hrun Hfuel.
  set (s0 := init (push (hB ++ B ++ rest) ds) t0).
  destruct (ReceiverFacts.receive_envelope Image image_open ins B hB rest ds s0)
    as (ins1 & ins2 & s1 & evs1 & -> & Hlen1 & Er1 & Ht1);
    try reflexivity; try assumption.
  { apply ReceiverFacts.clock_ok_init. }
  { lia. }
  apply ReceiverFacts.all_running_app in Hrun as [_ Hrun2].
  destruct Ht1 as (Hpc1 & Hport1 & Hc1 & Hd1 & He1 & Hf1).
  rewrite Hnext in Hport1. rewrite HB in He1, Hf1.
  rewrite length_app in Hfuel.
  destruct (ReceiverFacts.receive_last_envelope Image image_open ins2 G hG s1)
    as (s' & evs2 & Er2 & Ht2); try assumption.
  { lia. }
  destruct Ht2 as (Hpc2 & Hport2 & _ & Hd2 & He2 & Hf2).
  rewrite HG in He2, Hf2.
  exists s', (evs1 ++ evs2).
  rewrite ReceiverFacts.run_app, Er1, Er2.
  rewrite ReceiverFacts.decoded_app, ReceiverFacts.errors_app,
    ReceiverFacts.frames_app, Hd1, Hd2, He1, He2, Hf1, Hf2.
  repeat split; assumption || reflexivity.
Qed.

(** C3, as the code has it.  The receiver has no maximum payload length.
    Whatever length [L] a complete four-byte header declares, from 0 to
    2^32 - 1, and whatever follows the header on the line, the step that
    reads it raises nothing and enters the payload loop for [L] bytes; and
    every turn of that loop, in whatever state it is taken, asks the line
    for [min(remaining, 4096)] bytes when it reads: at least one byte and
    never more than 4096, however large the length declared. *)
Theorem header_length_unchecked
  (i : input) (s : state) (h rest : list byte) (L : Z) (ds : port) :
  pc s = AwaitingHeader ->
  serial_port s = push (h ++ rest) ds ->
  Wire.unpack_be32 h = Some L ->
  running i = true ->
  0 <= L <= Wire.max_length /\
  step image_open i s
  = (goto (AwaitingPayload L [] L) (push rest ds) s, [EvRead 4]) /\
  forall (i' : input) (s' : state) (L' : Z) (acc : list byte) (rem : Z),
    pc s' = AwaitingPayload L' acc rem ->
    reads (snd (step image_open i' s'))
    = (if (0 <? rem) && running i' then [Z.min rem 4096] else []) /\
    Forall (fun n => 1 <= n <= 4096) (reads (snd (step image_open i' s'))).
Proof.
  intros Hpc Hport Hh Hi.
  split; [exact (StepFacts.unpack_be32_range h L Hh)|]. split.
  - pose proof (StepFacts.unpack_be32_length h L Hh) as Hlen.
    unfold step. rewrite Hpc, Hi, Hport.
    destruct (SerialFacts.read_push h rest ds) as [E|E];
      [|subst h; discriminate].
    rewrite Hlen in E. change (Z.of_nat 4) with 4 in E. rewrite E.
    rewrite Hlen. simpl Nat.ltb. cbv iota. now rewrite Hh.
  - intros i' s' L' acc rem Hpc'.
    rewrite (StepFacts.step_read_request Image image_open i' s' L' acc rem
               Hpc').
    split; [reflexivity|].
    destruct ((0 <? rem) && running i') eqn:Hguard; constructor;
      [|constructor].
    apply andb_true_iff in Hguard as [Hrem _]. apply Z.ltb_lt in Hrem. lia.
Qed.

(** C5, as the code has it.  In the payload loop with bytes still missing
    ([remaining > 0]): an empty read ends the loop, nothing is reported and
    the thread goes back to await a header; a read that raises is reported
    as a serial error and stops the thread; in no case does the partial
    payload reach the decoder or a frame come out.  And whatever a step
    hands to the decoder is a payload collected in full, with nothing
    missing. *)
Theorem incomplete_payload_dropped
  (i : input) (s : state) (L : Z) (acc : list byte) (rem : Z) :
  pc s = AwaitingPayload L acc rem ->
  Z.of_nat (length acc) + rem = L ->
  0 < rem ->
  running i = true ->
  (forall p, read (Z.min rem 4096) (serial_port s) = (Data [], p) ->
     step image_open i s
     = (goto AwaitingHeader p s, [EvRead (Z.min rem 4096)])) /\
  (forall p, read (Z.min rem 4096) (serial_port s) = (Raised, p) ->
     step image_open i s
     = (goto Stopped p s, [EvRead (Z.min rem 4096); EvError SerialError])) /\
  (forall i', decoded (snd (step image_open i' s)) = [] /\
              frames (snd (step image_open i' s)) = []) /\
  (forall i' s0 data,
     payload_inv s0 ->
     In data (decoded (snd (step image_open i' s0))) ->
     pc s0 = AwaitingPayload (Z.of_nat (length data)) data 0).
Proof.
  intros Hpc Hinv Hrem Hi.
  assert (Hshort : Z.of_nat (length acc) <> L) by lia.
  assert (Hguard : (0 <? rem) && running i = true)
    by (rewrite Hi; apply andb_true_iff; split; [now apply Z.ltb_lt|easy]).
  split; [|split; [|split]].
  - intros p Hread. unfold step. rewrite Hpc, Hguard. cbv zeta.
    rewrite Hread.
    now rewrite (StepFacts.after_loop_frames_short Image image_open
                   i p s L acc Hshort).
  - intros p Hread. unfold step. rewrite Hpc, Hguard. cbv zeta.
    now rewrite Hread.
  - intros i'. split.
    + destruct (decoded (snd (step image_open i' s))) as [|data l] eqn:E;
        [reflexivity|].
      destruct (StepFacts.step_decoded Image image_open i' s data)
        as (L' & rem' & Hpc' & Hlen'); [rewrite E; now left|].
      rewrite Hpc in Hpc'. injection Hpc' as <- <- <-. contradiction.
    + unfold step. rewrite Hpc.
      destruct ((0 <? rem) && running i'); cbv zeta.
      * destruct (read (Z.min rem 4096) (serial_port s)) as [[[|b c]|] p];
          try reflexivity.
        now rewrite (StepFacts.after_loop_frames_short Image image_open
                       i' p s L acc Hshort).
      * now rewrite (StepFacts.after_loop_frames_short Image image_open
                       i' (serial_port s) s L acc Hshort).
  - intros i' s0 data Hinv0 Hin.
    destruct (StepFacts.step_decoded Image image_open i' s0 data Hin)
      as (L' & rem' & Hpc' & Hlen').
    unfold payload_inv in Hinv0. rewrite Hpc' in Hinv0.
    assert (rem' = 0) by lia. subst. exact Hpc'.
Qed.

(** C9, as the code has it.  A step emits at most one rate report, and
    only when the clock reads at least one second more than at the last
    report (the start of the session, before the first); the report then
    becomes the last one.  The value reported is the number of frames
    delivered since the session started, divided by the time since it
    started: the counter goes up by one with every frame delivered and is
    never set back, in a step or over a run. *)
Theorem fps_report_rule (i : input) (s : state)
  (ins : list input) (p : port) (t0 : Q) :
  let s' := fst (step image_open i s) in
  let evs := snd (step image_open i s) in
  (frames_received s'
   = frames_received s + Z.of_nat (length (frames evs)) /\
   start_time s' = start_time s /\
   ((rates evs = [] /\ last_fps_update s' = last_fps_update s) \/
    (rates evs
     = [(inject_Z (frames_received s') / (now i - start_time s))%Q] /\
     (1 <= now i - last_fps_update s)%Q /\
     last_fps_update s' = now i /\
     length (frames evs) = 1%nat))) /\
  frames_received (fst (run image_open ins (init p t0)))
  = Z.of_nat (length (frames (snd (run image_open ins (init p t0))))).
Proof.
  split.
  - apply StepFacts.step_rate.
  - now rewrite StepFacts.run_frames_count.
Qed.

(** C10, as the code has it.  In every state the thread can reach, inside
    the inner loop [len(jpeg_data) + remaining == frame_size] and
    [remaining >= 0], so the bytes collected never exceed the declared
    length; a turn of the loop asks for [min(remaining, 4096)] bytes, and
    the loop goes round again exactly when bytes are still missing, the
    thread has not been told to stop, and the read brought at least one
    byte: it is left when [remaining] is 0, when [self.running] is false,
    on an empty read, and when the read raises. *)
Theorem payload_loop_invariant
  (ins : list input) (p : port) (t0 : Q) (i : input)
  (L : Z) (acc : list byte) (rem : Z) :
  let s := fst (run image_open ins (init p t0)) in
  pc s = AwaitingPayload L acc rem ->
  Z.of_nat (length acc) + rem = L /\
  0 <= rem /\
  Z.of_nat (length acc) <= L /\
  reads (snd (step image_open i s))
  = (if (0 <? rem) && running i then [Z.min rem 4096] else []) /\
  in_payload_loop (fst (step image_open i s))
  = (0 <? rem) && running i
    && brought_bytes (fst (read (Z.min rem 4096) (serial_port s))) /\
  payload_inv (fst (step image_open i s)).
Proof.
  intros s Hpc.
  assert (Hinv : payload_inv s)
    by (apply StepFacts.run_payload_inv; exact I).
  pose proof Hinv as Hinv'. unfold payload_inv in Hinv'.
  rewrite Hpc in Hinv'. destruct Hinv' as [Hsum Hrem].
  split; [exact Hsum|]. split; [exact Hrem|]. split; [lia|].
  split; [now apply StepFacts.step_read_request with (L := L) (acc := acc)|].
  split; [now apply StepFacts.step_in_loop with (L := L) (acc := acc)|].
  now apply StepFacts.step_payload_inv.
Qed.

End Reader.

(** ** Concrete runs *)

Module Runs.

Import Serial Receiver.

Lemma envelope_roundtrip_witness :
  exists h,
    Wire.pack_be32 2 = Some h /\
    length h = 4%nat /\
    Sender.encode_envelope [xff; xd8] = Some (h ++ [xff; xd8]) /\
    Receiver.decode_envelope Receiver.soi_open (Receiver.steady 4 0%Q)
      (h ++ [xff; xd8]) = [[xff; xd8]].
Proof.
  apply (envelope_roundtrip (list byte) Receiver.soi_open [xff; xd8]
           (Receiver.steady 4 0%Q)).
  - unfold Wire.max_length. simpl. lia.
  - repeat constructor.
  - simpl. lia.
Defined.

Lemma decode_failure_recovery_witness :
  exists s' evs,
    Receiver.run Receiver.soi_open (Receiver.steady 7 0%Q)
      (Receiver.init
         (Serial.push ([x00; x00; x00; x01] ++ [x2a]
                       ++ [x00; x00; x00; x02; xff; xd8]) []) 0%Q)
    = (s', evs) /\
    Receiver.decoded evs = [[x2a]; [xff; xd8]] /\
    Receiver.errors evs = [Receiver.ProcessingError] /\
    Receiver.frames evs = [[xff; xd8]] /\
    Receiver.pc s' = Receiver.AwaitingHeader /\
    Receiver.serial_port s' = [].
Proof.
  apply (decode_failure_recovery (list byte) Receiver.soi_open
           [x2a] [xff; xd8] [x00; x00; x00; x01] [x00; x00; x00; x02]
           [x00; x00; x00; x02; xff; xd8] [] [xff; xd8]
           (Receiver.steady 7 0%Q) 0%Q).
  - reflexivity.
  - reflexivity.
  - reflexivity.
  - reflexivity.
  - reflexivity.
  - repeat constructor.
  - simpl. lia.
Defined.

(** C2.  The envelope arrives with a stall after the first two header
    bytes.  The read of the header returns those two bytes, the thread
    signals nothing and stays at the outer test, but the two bytes are gone
    from the line and are not kept anywhere: when the rest arrives the next
    read takes 00 03 FF D8 for a header and declares 262104 bytes, and the
    payload never reaches the decoder, however long the thread runs.
    Delivered in one piece the same envelope yields the frame. *)
Theorem partial_header_discarded :
  [x00; x00] ++ [x00; x03; xff; xd8; xd9] = sample_envelope /\
  (forall n,
     frames (snd (run soi_open (steady (3 + n) 0) (init [Chunk sample_envelope] 0)))
     = [[xff; xd8; xd9]]) /\
  run soi_open [go] (init stalled_line 0)
  = (init [Chunk [x00; x03; xff; xd8; xd9]] 0, [EvRead 4]) /\
  fst (run soi_open [go; go] (init stalled_line 0))
  = mkState (AwaitingPayload 262104 [] 262104) [Chunk [xd9]] 0 0 0 /\
  (forall n,
     decoded (snd (run soi_open (steady n 0) (init stalled_line 0))) = []).
Proof.
  split; [reflexivity|]. split; [|split; [|split]].
  - intros n.
    erewrite ReceiverFacts.run_then_idle;
      [|vm_compute; reflexivity|reflexivity|reflexivity].
    cbn [snd]. rewrite ReceiverFacts.frames_app.
    destruct (ReceiverFacts.silent_repeat_read (list byte) n 4)
      as (_ & _ & ->).
    reflexivity.
  - reflexivity.
  - reflexivity.
  - intros n.
    destruct n as [|[|[|[|n]]]]; try reflexivity.
    change (S (S (S (S n)))) with (4 + n)%nat.
    erewrite ReceiverFacts.run_then_idle;
      [|vm_compute; reflexivity|reflexivity|reflexivity].
    cbn [snd]. rewrite ReceiverFacts.decoded_app.
    destruct (ReceiverFacts.silent_repeat_read (list byte) n 4)
      as (-> & _ & _).
    reflexivity.
Qed.

(** C4.  The same envelope, whole and then cut into one-byte deliveries.
    Whole, the payload reaches the decoder.  Byte by byte, each read of the
    header returns a single byte, which is dropped, and after seven such
    reads the line is empty: nothing ever reaches the decoder. *)
Theorem bytewise_delivery_loses_frame :
  (forall n,
     decoded (snd (run soi_open (steady (3 + n) 0) (init [Chunk sample_envelope] 0)))
     = [[xff; xd8; xd9]]) /\
  run soi_open (steady 7 0) (init bytewise_line 0)
  = (init [] 0, repeat (EvRead 4) 7) /\
  (forall n,
     decoded (snd (run soi_open (steady n 0) (init bytewise_line 0))) = []).
Proof.
  split; [|split].
  - intros n.
    erewrite ReceiverFacts.run_then_idle;
      [|vm_compute; reflexivity|reflexivity|reflexivity].
    cbn [snd]. rewrite ReceiverFacts.decoded_app.
    destruct (ReceiverFacts.silent_repeat_read (list byte) n 4)
      as (-> & _ & _).
    reflexivity.
  - reflexivity.
  - intros n.
    destruct n as [|[|[|[|[|[|[|n]]]]]]]; try reflexivity.
    change (S (S (S (S (S (S (S n))))))) with (7 + n)%nat.
    erewrite ReceiverFacts.run_then_idle;
      [|vm_compute; reflexivity|reflexivity|reflexivity].
    cbn [snd]. rewrite ReceiverFacts.decoded_app.
    destruct (ReceiverFacts.silent_repeat_read (list byte) n 4)
      as (-> & _ & _).
    reflexivity.
Qed.

(** C3 fails as stated.  A header that declares 4294967295 bytes, more than
    any maximum a configuration would set: no error, the thread enters the
    payload loop for that length, asks for 4096 bytes and keeps what comes. *)
Lemma oversized_header_accepted :
  Wire.unpack_be32 [xff; xff; xff; xff] = Some 4294967295 /\
  run soi_open [go; go]
    (init [Chunk [xff; xff; xff; xff]; Chunk [xff; xd8]] 0)
  = (mkState (AwaitingPayload 4294967295 [xff; xd8] 4294967293) [] 0 0 0,
     [EvRead 4; EvRead 4096]).
Proof. split; reflexivity. Qed.

Lemma header_length_unchecked_witness :
  (0 <= 4294967295 <= Wire.max_length /\
   step soi_open go (init [Chunk [xff; xff; xff; xff; xff; xd8]] 0)
   = (mkState (AwaitingPayload 4294967295 [] 4294967295)
        [Chunk [xff; xd8]] 0 0 0,
      [EvRead 4])) /\
  (0 <= 0 <= Wire.max_length /\
   step soi_open go (init [Chunk [x00; x00; x00; x00]] 0)
   = (mkState (AwaitingPayload 0 [] 0) [] 0 0 0, [EvRead 4])).
Proof.
  split.
  - destruct (header_length_unchecked (list byte) soi_open go
                (init [Chunk [xff; xff; xff; xff; xff; xd8]] 0)
                [xff; xff; xff; xff] [xff; xd8] 4294967295 []
                eq_refl eq_refl eq_refl eq_refl)
      as (Hrange & Hstep & _).
    split; [exact Hrange|exact Hstep].
  - destruct (header_length_unchecked (list byte) soi_open go
                (init [Chunk [x00; x00; x00; x00]] 0)
                [x00; x00; x00; x00] [] 0 []
                eq_refl eq_refl eq_refl eq_refl)
      as (Hrange & Hstep & _).
    split; [exact Hrange|exact Hstep].
Defined.

(** C5 fails as stated.  The header declares five bytes, three arrive and
    the line goes quiet: the loop ends on the empty read and the thread is
    back polling for a header, with nothing but its reads to be seen. *)
Lemma incomplete_payload_unreported :
  run soi_open (steady 4 0)
    (init [Chunk [x00; x00; x00; x05; xff; xd8; xd9]] 0)
  = (init [] 0, [EvRead 4; EvRead 5; EvRead 2; EvRead 4]).
Proof. reflexivity. Qed.

Lemma incomplete_payload_dropped_witness :
  step soi_open go (mkState (AwaitingPayload 5 [xff; xd8; xd9] 2) [] 0 0 0)
  = (mkState AwaitingHeader [] 0 0 0, [EvRead (Z.min 2 4096)]).
Proof.
  apply (proj1 (incomplete_payload_dropped (list byte) soi_open go
                  (mkState (AwaitingPayload 5 [xff; xd8; xd9] 2) [] 0 0 0)
                  5 [xff; xd8; xd9] 2
                  eq_refl eq_refl eq_refl eq_refl)).
  reflexivity.
Defined.

(** C9 fails as stated.  Three frames, handed over when the clock reads 1,
    3/2 and 2, on a session started at 0.  The second report, at 2, comes
    one second after the first, and two frames arrived in that second; it
    reads 3/2, three frames over two seconds, and the counter stands at 3
    after it. *)
Lemma fps_count_not_reset :
  run soi_open (steady 3 1 ++ steady 3 (3 # 2) ++ steady 3 2)%Q
    (init [Chunk ([x00; x00; x00; x02; xff; xd8]
                  ++ [x00; x00; x00; x02; xff; xd8]
                  ++ [x00; x00; x00; x02; xff; xd8])] 0)
  = (mkState AwaitingHeader [] 3 0 2,
     [EvRead 4; EvRead 2; EvDecode [xff; xd8]; EvFrame [xff; xd8];
      EvFps 1;
      EvRead 4; EvRead 2; EvDecode [xff; xd8]; EvFrame [xff; xd8];
      EvRead 4; EvRead 2; EvDecode [xff; xd8]; EvFrame [xff; xd8];
      EvFps (3 # 2)]).
Proof. reflexivity. Qed.

(** C10 fails as stated.  The header of a two-byte payload has been read
    and both bytes are on the line when the thread sees [self.running]
    false: the loop is left with [remaining] at 2 and without a read. *)
Lemma payload_loop_left_on_stop :
  run soi_open [go] (init [Chunk [x00; x00; x00; x02; xff; xd8]] 0)
  = (mkState (AwaitingPayload 2 [] 2) [Chunk [xff; xd8]] 0 0 0,
     [EvRead 4]) /\
  step soi_open halt
    (mkState (AwaitingPayload 2 [] 2) [Chunk [xff; xd8]] 0 0 0)
  = (mkState AwaitingHeader [Chunk [xff; xd8]] 0 0 0, []).
Proof. split; reflexivity. Qed.

Lemma payload_loop_invariant_witness :
  Z.of_nat (length [xff; xd8; xd9]) + 2 = 5 /\
  0 <= 2 /\
  reads (snd (step soi_open go
                (fst (run soi_open [go; go]
                        (init [Chunk [x00; x00; x00; x05; xff; xd8; xd9]] 0)))))
  = [Z.min 2 4096].
Proof.
  pose proof (payload_loop_invariant (list byte) soi_open [go; go]
                [Chunk [x00; x00; x00; x05; xff; xd8; xd9]] 0%Q go
                5 [xff; xd8; xd9] 2 eq_refl)
    as (H1 & H2 & _ & H3 & _).
  split; [exact H1|]. split; [exact H2|exact H3].
Defined.

End Runs.

(** * Further properties of the reader *)

Module ReaderFacts.

Import Serial Receiver.

(** Every four-byte header is the packing of the length it unpacks to. *)
Lemma byte_of_Z_of_byte (b : byte) : Wire.byte_of_Z (Wire.Z_of_byte b) = b.
Proof.
  unfold Wire.byte_of_Z, Wire.Z_of_byte.
  pose proof (Byte.to_N_bounded b) as Hb.
  rewrite Z.mod_small by lia. rewrite N2Z.id.
  now rewrite Byte.of_to_N.
Qed.

Lemma byte_of_Z_mod (z : Z) : Wire.byte_of_Z (z mod 256) = Wire.byte_of_Z z.
Proof.
  unfold Wire.byte_of_Z. now rewrite Z.mod_mod by lia.
Qed.

Lemma byte_of_Z_eq (z : Z) (b : byte) :
  z mod 256 = Wire.Z_of_byte b -> Wire.byte_of_Z z = b.
Proof.
  intros H. now rewrite <- byte_of_Z_mod, H, byte_of_Z_of_byte.
Qed.

Lemma pack_unpack_be32 (h : list byte) (L : Z) :
  Wire.unpack_be32 h = Some L -> Wire.pack_be32 L = Some h.
Proof.
  intros Hh. pose proof (StepFacts.unpack_be32_range h L Hh) as HL.
  destruct h as [|b0 [|b1 [|b2 [|b3 [|]]]]]; try discriminate.
  simpl in Hh. injection Hh as HL'.
  unfold Wire.max_length in HL. unfold Wire.pack_be32.
  replace (0 <=? L) with true by (symmetry; apply Z.leb_le; lia).
  replace (L <? 2 ^ 32) with true by (symmetry; apply Z.ltb_lt; lia).
  cbn [andb].
  pose proof (WireFacts.Z_of_byte_range b0).
  pose proof (WireFacts.Z_of_byte_range b1).
  pose proof (WireFacts.Z_of_byte_range b2).
  pose proof (WireFacts.Z_of_byte_range b3).
  change (2 ^ 24) with 16777216. change (2 ^ 16) with 65536.
  change (2 ^ 8) with 256.
  do 2 f_equal; [|f_equal; [|f_equal; [|f_equal]]];
    apply byte_of_Z_eq; subst L;
    Z.to_euclidean_division_equations; lia.
Qed.

Section WithDecoder.

Variable Image : Type.
Variable image_open : list byte -> option Image.

Lemma reads_app (a b : list (event Image)) :
  reads (a ++ b) = reads a ++ reads b.
Proof. apply flat_map_app. Qed.

Lemma rates_app (a b : list (event Image)) :
  rates (a ++ b) = rates a ++ rates b.
Proof. apply flat_map_app. Qed.

(** Past the loop nothing happens any more. *)
Lemma stopped_run (ins : list input) (s : state) :
  pc s = Stopped -> run image_open ins s = (s, []).
Proof.
  intros Hpc. induction ins as [|i ins IH]; [reflexivity|].
  cbn [run]. unfold step at 1. now rewrite Hpc, IH.
Qed.

Ltac after_cases i s L data :=
  unfold after_loop;
  destruct (Z.of_nat (length data) =? L) eqn:Hfull;
  [ destruct (image_open data) as [im|] eqn:Hopen;
    [ destruct (Qle_bool 1 (now i - last_fps_update s)) eqn:Hdue;
      [ destruct (Qeq_bool (now i - start_time s) 0) eqn:Hzero | ] | ] | ].

Ltac cases i s :=
  unfold step;
  let L := fresh "L" in
  let acc := fresh "acc" in
  let rem := fresh "rem" in
  destruct (pc s) as [|L acc rem|] eqn:Hpc;
  [ destruct (running i) eqn:Hi;
    [ destruct (read 4 (serial_port s)) as [[d|] p] eqn:Hread;
      [ destruct (length d <? 4)%nat eqn:Hshort;
        [ | let L := fresh "L" in
            destruct (Wire.unpack_be32 d) as [L|] eqn:Hunpack ]
      | ]
    | ]
  | destruct ((0 <? rem) && running i) eqn:Hguard; cbv zeta;
    [ destruct (read (Z.min rem 4096) (serial_port s))
        as [[[|b chunk]|] p] eqn:Hread;
      [ destruct (after_loop image_open i p s L acc) as [s' evs] eqn:Hafter
      | | ]
    | ]
  | ].

(** What [after_loop] can signal. *)
Lemma after_loop_errors (i : input) (p : port) (s : state)
  (L : Z) (data : list byte) (e : error) :
  In e (errors (snd (after_loop image_open i p s L data))) ->
  e = ProcessingError.
Proof.
  after_cases i s L data; simpl; intros H;
    repeat (destruct H as [H|H]; [now subst|]); contradiction.
Qed.

Lemma after_loop_frames (i : input) (p : port) (s : state)
  (L : Z) (data : list byte) :
  frames (snd (after_loop image_open i p s L data))
  = flat_map (fun d => match image_open d with
                       | Some im => [im]
                       | None => []
                       end)
      (decoded (snd (after_loop image_open i p s L data))).
Proof.
  after_cases i s L data; simpl; rewrite ?Hopen; reflexivity.
Qed.

Lemma after_loop_failures (i : input) (p : port) (s : state)
  (L : Z) (data : list byte) :
  clock_ok s ->
  errors (snd (after_loop image_open i p s L data))
  = flat_map (fun d => match image_open d with
                       | Some _ => []
                       | None => [ProcessingError]
                       end)
      (decoded (snd (after_loop image_open i p s L data))).
Proof.
  intros Hc. after_cases i s L data; simpl; rewrite ?Hopen; try reflexivity.
  now rewrite (ReceiverFacts.elapsed_nonzero i s Hc Hdue) in Hzero.
Qed.

(** A four-byte read never hands [struct.unpack] anything but four
    bytes. *)
Lemma step_no_unexpected (i : input) (s : state) :
  ~ In UnexpectedError (errors (snd (step image_open i s))).
Proof.
  cases i s; simpl; try (intros [H|H]; [discriminate|contradiction]);
    try tauto.
  - apply SerialFacts.read_length in Hread; [|lia].
    apply Nat.ltb_ge in Hshort.
    destruct d as [|b0 [|b1 [|b2 [|b3 [|]]]]]; simpl in *;
      try lia; discriminate.
  - pose proof (after_loop_errors i p s L acc UnexpectedError) as H.
    rewrite Hafter in H. intros Hin. now specialize (H Hin).
  - intros Hin. now apply after_loop_errors in Hin.
Qed.

(** A serial error is the last thing a step does, and it ends the
    thread. *)
Lemma step_serial_error (i : input) (s : state) :
  In SerialError (errors (snd (step image_open i s))) ->
  pc (fst (step image_open i s)) = Stopped /\
  exists size, snd (step image_open i s)
               = [EvRead size; EvError SerialError].
Proof.
  cases i s; simpl; try tauto; try (intros [H|H]; [discriminate|tauto]);
    try (intros _; split; [reflexivity|eauto]).
  - pose proof (after_loop_errors i p s L acc SerialError) as H.
    rewrite Hafter in H. intros Hin. now specialize (H Hin).
  - intros Hin. now apply after_loop_errors in Hin.
Qed.

(** No read asks for nothing, none for more than 4096 bytes. *)
Lemma step_reads_bounded (i : input) (s : state) :
  Forall (fun n => 1 <= n <= 4096) (reads (snd (step image_open i s))).
Proof.
  cases i s; simpl; repeat constructor; try lia.
  all: try (apply andb_true_iff in Hguard as [Hrem _];
            apply Z.ltb_lt in Hrem; lia).
  - pose proof (StepFacts.after_loop_reads Image image_open i p s L acc) as H.
    rewrite Hafter in H. simpl in H. rewrite H. constructor.
  - rewrite StepFacts.after_loop_reads. constructor.
Qed.

Lemma step_frames (i : input) (s : state) :
  frames (snd (step image_open i s))
  = flat_map (fun d => match image_open d with
                       | Some im => [im]
                       | None => []
                       end)
      (decoded (snd (step image_open i s))).
Proof.
  cases i s; simpl; try reflexivity.
  - pose proof (after_loop_frames i p s L acc) as H.
    now rewrite Hafter in H.
  - apply after_loop_frames.
Qed.

Lemma step_failures (i : input) (s : state) :
  clock_ok s ->
  filter (fun e => match e with ProcessingError => true | _ => false end)
    (errors (snd (step image_open i s)))
  = flat_map (fun d => match image_open d with
                       | Some _ => []
                       | None => [ProcessingError]
                       end)
      (decoded (snd (step image_open i s))).
Proof.
  intros Hc.
  assert (Hall : forall p L acc,
            filter (fun e => match e with
                             | ProcessingError => true
                             | _ => false
                             end)
              (errors (snd (after_loop image_open i p s L acc)))
            = errors (snd (after_loop image_open i p s L acc))).
  { intros p L acc. apply forallb_filter_id. apply forallb_forall.
    intros e He. now rewrite (after_loop_errors i p s L acc e He). }
  cases i s; simpl; try reflexivity.
  - pose proof (after_loop_failures i p s L acc Hc) as H.
    pose proof (Hall p L acc) as H'.
    rewrite Hafter in H, H'. simpl in H, H'. now rewrite H'.
  - rewrite Hall. now apply after_loop_failures.
Qed.

(** A step that sees [self.running] false touches the port no more, and
    leaves whichever loop it stands in. *)
Lemma step_stop_request (i : input) (s : state) :
  running i = false ->
  reads (snd (step image_open i s)) = [] /\
  errors (snd (step image_open i s))
  = filter (fun e => match e with ProcessingError => true | _ => false end)
      (errors (snd (step image_open i s))) /\
  match pc s with
  | AwaitingPayload _ _ _ => pc (fst (step image_open i s)) = AwaitingHeader
  | _ => pc (fst (step image_open i s)) = Stopped
  end.
Proof.
  intros Hstop. unfold step.
  destruct (pc s) as [|L acc rem|] eqn:Hpc; rewrite ?Hstop.
  - repeat split.
  - rewrite andb_false_r.
    split; [apply StepFacts.after_loop_reads|].
    split; [|apply StepFacts.after_loop_pc].
    symmetry. apply forallb_filter_id. apply forallb_forall.
    intros e He. now rewrite (after_loop_errors i _ s L acc e He).
  - repeat split. exact Hpc.
Qed.

(** Envelope after envelope at the head of the line, in one delivery. *)
Lemma receive_stream (fs : list (list byte * list byte)) :
  forall (ins : list input) (s : state),
  Forall (fun hp => Wire.pack_be32 (Z.of_nat (length (snd hp)))
                    = Some (fst hp)) fs ->
  pc s = AwaitingHeader ->
  serial_port s = push (flat_map (fun hp => fst hp ++ snd hp) fs) [] ->
  clock_ok s ->
  all_running ins ->
  (list_sum (map (fun hp => length (snd hp) + 2) fs) <= length ins)%nat ->
  exists s' evs,
    run image_open ins s = (s', evs) /\
    pc s' = AwaitingHeader /\ serial_port s' = [] /\
    decoded evs = map snd fs /\
    frames evs = flat_map (fun hp => match image_open (snd hp) with
                                     | Some im => [im]
                                     | None => []
                                     end) fs /\
    errors evs = flat_map (fun hp => match image_open (snd hp) with
                                     | Some _ => []
                                     | None => [ProcessingError]
                                     end) fs.
Proof.
  induction fs as [|[h P] fs IH]; intros ins s Hfs Hpc Hport Hc Hrun Hfuel.
  - simpl in Hport.
    rewrite (ReceiverFacts.idle_run Image image_open ins s Hpc Hport Hrun).
    destruct (ReceiverFacts.silent_repeat_read Image (length ins) 4)
      as (Hd & He & Hf).
    exists s, (repeat (EvRead 4) (length ins)). simpl.
    repeat split; assumption.
  - apply Forall_cons_iff in Hfs as [Hh Hfs]. simpl in Hh, Hfuel.
    cbn [flat_map fst snd] in Hport. rewrite <- app_assoc in Hport.
    destruct (ReceiverFacts.receive_envelope Image image_open ins P h
                (flat_map (fun hp => fst hp ++ snd hp) fs) [] s
                Hpc Hport Hc Hh Hrun)
      as (ins1 & ins2 & s1 & evs1 & -> & Hlen1 & Er1 & Ht1); [lia|].
    apply ReceiverFacts.all_running_app in Hrun as [_ Hrun2].
    destruct Ht1 as (Hpc1 & Hport1 & Hc1 & Hd1 & He1 & Hf1).
    rewrite length_app in Hfuel.
    destruct (IH ins2 s1 Hfs Hpc1 Hport1 Hc1 Hrun2)
      as (s' & evs2 & Er2 & Hpc2 & Hport2 & Hd2 & Hf2 & He2); [lia|].
    exists s', (evs1 ++ evs2).
    rewrite ReceiverFacts.run_app, Er1, Er2.
    rewrite ReceiverFacts.decoded_app, ReceiverFacts.frames_app,
      ReceiverFacts.errors_app, Hd1, Hd2, Hf1, Hf2, He1, He2.
    repeat split; assumption || reflexivity.
Qed.

Lemma run_step (i : input) (ins : list input) (s : state) :
  run image_open (i :: ins) s
  = (fst (run image_open ins (fst (step image_open i s))),
     snd (step image_open i s)
     ++ snd (run image_open ins (fst (step image_open i s)))).
Proof.
  cbn [run]. destruct (step image_open i s) as [s1 e1]. cbn [fst snd].
  now destruct (run image_open ins s1).
Qed.

Lemma run_clock_ok (ins : list input) (s : state) :
  clock_ok s -> clock_ok (fst (run image_open ins s)).
Proof.
  revert s. induction ins as [|i ins IH]; intros s Hc; [exact Hc|].
  rewrite run_step. cbn [fst]. apply IH.
  now apply StepFacts.step_clock_ok.
Qed.

(** Frames and decode failures follow from what went to the decoder. *)
Lemma run_outcomes (ins : list input) (s : state) :
  clock_ok s ->
  frames (snd (run image_open ins s))
  = flat_map (fun d => match image_open d with
                       | Some im => [im]
                       | None => []
                       end)
      (decoded (snd (run image_open ins s))) /\
  filter (fun e => match e with ProcessingError => true | _ => false end)
    (errors (snd (run image_open ins s)))
  = flat_map (fun d => match image_open d with
                       | Some _ => []
                       | None => [ProcessingError]
                       end)
      (decoded (snd (run image_open ins s))).
Proof.
  revert s. induction ins as [|i ins IH]; intros s Hc; [now split|].
  rewrite run_step. cbn [snd].
  destruct (IH _ (StepFacts.step_clock_ok Image image_open i s Hc))
    as [IHf IHe].
  rewrite ReceiverFacts.frames_app, ReceiverFacts.errors_app,
    ReceiverFacts.decoded_app, filter_app, !flat_map_app.
  rewrite IHf, IHe, step_frames, (step_failures i s Hc). now split.
Qed.

(** A rate report divides a positive count by at least one second. *)
Lemma run_rates (ins : list input) (s : state) :
  clock_ok s ->
  0 <= frames_received s ->
  Forall (fun q => (0 < q)%Q /\
                   (q <= inject_Z (frames_received s
                                   + Z.of_nat (length (frames
                                        (snd (run image_open ins s))))))%Q)
    (rates (snd (run image_open ins s))).
Proof.
  revert s. induction ins as [|i ins IH]; intros s Hc Hn; [constructor|].
  rewrite run_step. cbn [snd].
  pose proof (StepFacts.step_rate Image image_open i s)
    as (Hcount & Hstart & Hrate).
  pose proof (StepFacts.step_clock_ok Image image_open i s Hc) as Hc1.
  set (s1 := fst (step image_open i s)) in *.
  set (e1 := snd (step image_open i s)) in *.
  assert (Hn1 : 0 <= frames_received s1) by lia.
  specialize (IH s1 Hc1 Hn1).
  rewrite rates_app, ReceiverFacts.frames_app, length_app.
  apply Forall_app. split.
  - destruct Hrate as [[-> _]|(-> & Hdue & _ & Hone)]; constructor;
      [|constructor].
    unfold clock_ok in Hc.
    assert (He : (1 <= now i - start_time s)%Q) by lra.
    assert (Hf : (1 <= inject_Z (frames_received s1))%Q).
    { rewrite Hcount, Hone. change 1%Q with (inject_Z 1).
      rewrite <- Zle_Qle. lia. }
    split.
    + apply Qlt_shift_div_l; lra.
    + apply Qle_trans with (inject_Z (frames_received s1)).
      * apply Qle_shift_div_r; [lra|]. nra.
      * rewrite <- Zle_Qle. lia.
  - eapply Forall_impl; [|exact IH]. cbn beta. intros q [Hq1 Hq2].
    split; [exact Hq1|].
    eapply Qle_trans; [exact Hq2|]. rewrite <- Zle_Qle. lia.
Qed.

(** A serial error ends the run that meets it. *)
Lemma run_serial_error (ins : list input) (s : state) :
  In SerialError (errors (snd (run image_open ins s))) ->
  pc (fst (run image_open ins s)) = Stopped /\
  exists pre size,
    snd (run image_open ins s)
    = pre ++ [EvRead size; EvError SerialError] /\
    ~ In SerialError (errors pre).
Proof.
  revert s. induction ins as [|i ins IH]; intros s; [simpl; tauto|].
  rewrite run_step. cbn [fst snd].
  set (s1 := fst (step image_open i s)).
  set (e1 := snd (step image_open i s)).
  assert (Hdec : In SerialError (errors e1) \/ ~ In SerialError (errors e1)).
  { destruct (in_dec (fun a b : error =>
                        ltac:(decide equality) : {a = b} + {a <> b})
                SerialError (errors e1)); auto. }
  destruct Hdec as [Hin|Hnot].
  - intros _.
    destruct (step_serial_error i s Hin)
      as (Hpc1 & size & He1).
    fold s1 in Hpc1. fold e1 in He1.
    rewrite (stopped_run ins s1 Hpc1).
    cbn [fst snd]. split; [exact Hpc1|].
    exists [], size. rewrite app_nil_r. split; [exact He1|]. simpl. tauto.
  - rewrite ReceiverFacts.errors_app, in_app_iff.
    intros [H|H]; [contradiction|].
    destruct (IH s1 H) as (Hpc2 & pre & size & He2 & Hpre).
    split; [exact Hpc2|].
    exists (e1 ++ pre), size. rewrite He2, app_assoc. split; [reflexivity|].
    rewrite ReceiverFacts.errors_app, in_app_iff. tauto.
Qed.

End WithDecoder.

End ReaderFacts.

Section ReaderExtras.

Import Serial Receiver.

Variable Image : Type.
Variable image_open : list byte -> option Image.

(** X1.  A stream of envelopes: any number of payloads, each behind its
    four-byte length, back to back in one delivery.  With enough steps (one
    per payload byte and two per envelope) the decoder is handed exactly
    the payloads, in order; the frames delivered are those it accepts and
    one processing error is reported for each it rejects; the thread ends
    awaiting a header on an empty line. *)
Theorem stream_roundtrip
  (fs : list (list byte * list byte)) (ins : list input) (t0 : Q) :
  Forall (fun hp => Wire.pack_be32 (Z.of_nat (length (snd hp)))
                    = Some (fst hp)) fs ->
  all_running ins ->
  (list_sum (map (fun hp => length (snd hp) + 2) fs) <= length ins)%nat ->
  let r := run image_open ins
             (init (push (flat_map (fun hp => fst hp ++ snd hp) fs) []) t0) in
  decoded (snd r) = map snd fs /\
  frames (snd r) = flat_map (fun hp => match image_open (snd hp) with
                                       | Some im => [im]
                                       | None => []
                                       end) fs /\
  errors (snd r) = flat_map (fun hp => match image_open (snd hp) with
                                       | Some _ => []
                                       | None => [ProcessingError]
                                       end) fs /\
  pc (fst r) = AwaitingHeader /\
  serial_port (fst r) = [].
Proof.
  intros Hfs Hrun Hfuel r.
  destruct (ReaderFacts.receive_stream Image image_open fs ins
              (init (push (flat_map (fun hp => fst hp ++ snd hp) fs) []) t0)
              Hfs eq_refl eq_refl (ReceiverFacts.clock_ok_init _ _)
              Hrun Hfuel)
    as (s' & evs & Er & Hpc & Hport & Hd & Hf & He).
  subst r. rewrite Er. cbn [fst snd]. repeat split; assumption.
Qed.

(** X2.  A zero-length envelope.  The header 00 00 00 00 is followed by no
    payload read at all: the next step, whatever [self.running] reads by
    then, hands the empty payload to the decoder and is back at the outer
    test, with everything behind the header still on the line. *)
Theorem empty_payload_decoded
  (i1 i2 : input) (s : state) (rest : list byte) (ds : port) :
  pc s = AwaitingHeader ->
  serial_port s = push ([x00; x00; x00; x00] ++ rest) ds ->
  running i1 = true ->
  reads (snd (run image_open [i1; i2] s)) = [4] /\
  decoded (snd (run image_open [i1; i2] s)) = [[]] /\
  pc (fst (run image_open [i1; i2] s)) = AwaitingHeader /\
  serial_port (fst (run image_open [i1; i2] s)) = push rest ds.
Proof.
  intros Hpc Hport Hi.
  pose proof (ReceiverFacts.header_step Image image_open i1 s 0
                [x00; x00; x00; x00] rest ds Hpc Hport eq_refl Hi) as E1.
  rewrite !ReaderFacts.run_step, E1. cbn [fst snd run].
  set (s1 := goto (AwaitingPayload 0 [] 0) (push rest ds) s).
  assert (E2 : step image_open i2 s1
               = after_loop image_open i2 (push rest ds) s1 0 []).
  { unfold step. cbn [pc s1 goto]. now rewrite andb_false_l. }
  rewrite E2, app_nil_r.
  rewrite ReaderFacts.reads_app, ReceiverFacts.decoded_app.
  rewrite StepFacts.after_loop_reads, StepFacts.after_loop_decoded,
    StepFacts.after_loop_pc, StepFacts.after_loop_port.
  repeat split.
Qed.

(** X3.  The thread never reports an "Unexpected error": the only call
    that could raise outside the inner [try], [struct.unpack], is reached
    with exactly four bytes.  This holds from any state, on any line. *)
Theorem never_unexpected_error (ins : list input) (s : state) :
  ~ In UnexpectedError (errors (snd (run image_open ins s))).
Proof.
  revert s. induction ins as [|i ins IH]; intros s; [simpl; tauto|].
  rewrite ReaderFacts.run_step. cbn [snd].
  rewrite ReceiverFacts.errors_app, in_app_iff.
  intros [H|H].
  - exact (ReaderFacts.step_no_unexpected Image image_open i s H).
  - exact (IH _ H).
Qed.

(** X4.  A serial error is final.  Take the thread from its first line:
    the open of line 42 succeeds or raises, and after a successful open
    the loop runs.  If the thread reports a serial error, it reports it
    once, as the last thing it does, and it is stopped.  The error comes
    from the open, and then nothing at all came before it, or from a read,
    and then it comes right after the read that raised. *)
Theorem serial_error_is_final
  (opened : bool) (p : port) (t0 : Q) (ins : list input) :
  In SerialError (errors (snd (session image_open opened p t0 ins))) ->
  pc (fst (session image_open opened p t0 ins)) = Stopped /\
  exists pre,
    snd (session image_open opened p t0 ins) = pre ++ [EvError SerialError] /\
    ~ In SerialError (errors pre) /\
    if opened then exists pre' size, pre = pre' ++ [EvRead size]
    else pre = [].
Proof.
  unfold session. destruct opened.
  - intros Hin.
    destruct (ReaderFacts.run_serial_error Image image_open ins (init p t0)
                Hin)
      as (Hpc & pre & size & Hev & Hpre).
    split; [exact Hpc|].
    exists (pre ++ [EvRead size]). rewrite <- app_assoc.
    split; [exact Hev|]. split; [|eauto].
    rewrite ReceiverFacts.errors_app, in_app_iff. simpl. tauto.
  - intros _. split; [reflexivity|].
    exists []. simpl. tauto.
Qed.

(** X5.  A stop request is honoured within two tests of [self.running]:
    once the flag has read false twice in a row the thread is stopped for
    good, whatever it was doing, and between the first of the two tests
    and the end it has not touched the port and has met no serial error. *)
Theorem stop_is_prompt (i1 i2 : input) (ins : list input) (s : state) :
  running i1 = false ->
  running i2 = false ->
  pc (fst (run image_open (i1 :: i2 :: ins) s)) = Stopped /\
  reads (snd (run image_open (i1 :: i2 :: ins) s)) = [] /\
  ~ In SerialError (errors (snd (run image_open (i1 :: i2 :: ins) s))).
Proof.
  intros H1 H2.
  destruct (ReaderFacts.step_stop_request Image image_open i1 s H1)
    as (Hr1 & He1 & Hpc1).
  set (s1 := fst (step image_open i1 s)) in *.
  destruct (ReaderFacts.step_stop_request Image image_open i2 s1 H2)
    as (Hr2 & He2 & Hpc2).
  set (s2 := fst (step image_open i2 s1)) in *.
  assert (Hs2 : pc s2 = Stopped).
  { destruct (pc s) eqn:Es; rewrite Hpc1 in Hpc2; exact Hpc2. }
  rewrite !ReaderFacts.run_step. fold s1. fold s2.
  rewrite (ReaderFacts.stopped_run Image image_open ins s2 Hs2).
  cbn [fst snd]. rewrite app_nil_r.
  split; [exact Hs2|].
  split; [now rewrite ReaderFacts.reads_app, Hr1, Hr2|].
  rewrite ReceiverFacts.errors_app, He1, He2, in_app_iff.
  intros [H|H]; apply filter_In in H as [_ H]; discriminate.
Qed.

(** X6.  Every payload handed to the decoder has exactly one outcome.  In
    any run of a session, the frames delivered are the images of the
    payloads the decoder accepted, in order, and the processing errors
    reported are one for each payload it rejected: the rate computation
    never adds an error of its own (it never divides by zero). *)
Theorem decode_outcomes (ins : list input) (p : port) (t0 : Q) :
  let evs := snd (run image_open ins (init p t0)) in
  frames evs
  = flat_map (fun d => match image_open d with
                       | Some im => [im]
                       | None => []
                       end) (decoded evs) /\
  filter (fun e => match e with ProcessingError => true | _ => false end)
    (errors evs)
  = flat_map (fun d => match image_open d with
                       | Some _ => []
                       | None => [ProcessingError]
                       end) (decoded evs).
Proof.
  apply ReaderFacts.run_outcomes. apply ReceiverFacts.clock_ok_init.
Qed.

(** X7.  Rate reports make sense: in any run of a session every reported
    rate is positive and no larger than the number of frames delivered in
    the run (the elapsed time it divides by is at least one second). *)
Theorem rates_are_sane (ins : list input) (p : port) (t0 : Q) :
  let evs := snd (run image_open ins (init p t0)) in
  Forall (fun q => (0 < q)%Q /\
                   (q <= inject_Z (Z.of_nat (length (frames evs))))%Q)
    (rates evs).
Proof.
  cbv zeta.
  pose proof (ReaderFacts.run_rates Image image_open ins (init p t0)
                (ReceiverFacts.clock_ok_init _ _) (Z.le_refl 0)) as H.
  exact H.
Qed.

(** X8.  The thread never asks the port for nothing and never for more
    than 4096 bytes in one read, from any state and on any line. *)
Theorem read_sizes_bounded (ins : list input) (s : state) :
  Forall (fun n => 1 <= n <= 4096) (reads (snd (run image_open ins s))).
Proof.
  revert s. induction ins as [|i ins IH]; intros s; [constructor|].
  rewrite ReaderFacts.run_step. cbn [snd].
  rewrite ReaderFacts.reads_app. apply Forall_app. split.
  - apply ReaderFacts.step_reads_bounded.
  - apply IH.
Qed.

End ReaderExtras.

(** X9.  The length field is read as it was written, both ways: a header
    of four bytes unpacks to a length between 0 and 2^32 - 1 whose packing
    is that very header, so no other header declares the same length. *)
Theorem header_unpack_pack (h : list byte) (L : Z) :
  Wire.unpack_be32 h = Some L ->
  0 <= L <= Wire.max_length /\
  Wire.pack_be32 L = Some h /\
  (forall h', Wire.unpack_be32 h' = Some L -> h' = h).
Proof.
  intros Hh.
  split; [exact (StepFacts.unpack_be32_range h L Hh)|].
  pose proof (ReaderFacts.pack_unpack_be32 h L Hh) as Hp.
  split; [exact Hp|].
  intros h' Hh'. apply ReaderFacts.pack_unpack_be32 in Hh'.
  rewrite Hp in Hh'. now injection Hh'.
Qed.

(** * Properties of the sender's loop *)

Module SenderLoopFacts.

Import Serial SenderLoop.

Lemma wire_app (a b : list serial_op) : wire (a ++ b) = wire a ++ wire b.
Proof. apply flat_map_app. Qed.

(** The calls that put a list of envelopes on the line, and the bytes
    they put there. *)
Lemma wire_envelopes (fs : list (list byte * list byte)) :
  wire (flat_map (fun hp => [Write (fst hp); Write (snd hp); Flush]) fs)
  = flat_map (fun hp => fst hp ++ snd hp) fs.
Proof.
  induction fs as [|[h P] fs IH]; [reflexivity|].
  cbn [flat_map fst snd]. rewrite wire_app, IH.
  unfold wire at 1. simpl. now rewrite app_nil_r, <- app_assoc.
Qed.

Lemma total_app (a b : list Q) :
  (total (a ++ b) == total a + total b)%Q.
Proof.
  induction a as [|x a IH]; simpl; [ring|]. rewrite IH. ring.
Qed.

Lemma total_cons (x : Q) (l : list Q) : total (x :: l) = (x + total l)%Q.
Proof. reflexivity. Qed.

Lemma naps_app (a b : list sender_event) : naps (a ++ b) = naps a ++ naps b.
Proof. apply flat_map_app. Qed.

Lemma progress_frames_app (a b : list sender_event) :
  progress_frames (a ++ b) = progress_frames a ++ progress_frames b.
Proof. apply flat_map_app. Qed.

(** What a cycle sleeps makes up for what it fell short of the
    interval. *)
Lemma nap_covers (T d : Q) :
  (T <= d + total (if Sender.sleeps T d
                   then [Sender.sleep_time T d] else []))%Q /\
  Forall (fun x => (0 < x)%Q)
    (if Sender.sleeps T d then [Sender.sleep_time T d] else []).
Proof.
  unfold Sender.sleeps, Sender.sleep_time, Sender.py_max.
  destruct (Qlt_le_dec 0 (T - d)) as [Hlt|Hle].
  - destruct (Qle_bool (T - d) 0) eqn:E.
    + apply Qle_bool_iff in E. lra.
    + simpl. split; [lra|]. now constructor.
  - replace (Qle_bool 0 0) with true by reflexivity. simpl.
    split; [lra|constructor].
Qed.

Section WithEncoder.

Variable RawImage : Type.
Variable jpeg_save : RawImage -> list byte.

Lemma run_cycles_step (c : cycle RawImage) (cycles : list (cycle RawImage))
  (l : loop) :
  run_cycles jpeg_save (c :: cycles) l
  = (fst (run_cycles jpeg_save cycles (fst (cycle_step jpeg_save c l))),
     snd (cycle_step jpeg_save c l)
     ++ snd (run_cycles jpeg_save cycles (fst (cycle_step jpeg_save c l)))).
Proof.
  cbn [run_cycles]. destruct (cycle_step jpeg_save c l) as [l1 e1].
  cbn [fst snd]. now destruct (run_cycles jpeg_save cycles l1).
Qed.

(** A clean turn: the envelope goes out whole, the count goes up by one,
    a progress line is printed on every thirtieth frame, and the loop
    sleeps what is left of the interval. *)
Lemma clean_step (c : cycle RawImage) (l : loop) :
  clean jpeg_save (start_time (me l)) c ->
  looping l = true ->
  running (me l) = true ->
  exists image h,
    captured c = Some image /\
    Wire.pack_be32 (Z.of_nat (length (jpeg_save image))) = Some h /\
    fst (cycle_step jpeg_save c l)
    = mkLoop (mkSender true (thread (me l)) (frames_sent (me l) + 1)
                (start_time (me l)))
        (ser l ++ [Write h; Write (jpeg_save image); Flush])
        (is_open l) true /\
    progress_frames (snd (cycle_step jpeg_save c l))
    = (if (frames_sent (me l) + 1) mod 30 =? 0
       then [frames_sent (me l) + 1] else []) /\
    naps (snd (cycle_step jpeg_save c l))
    = (if Sender.sleeps Sender.FRAME_INTERVAL (done_at c - frame_start c)
       then [Sender.sleep_time Sender.FRAME_INTERVAL
               (done_at c - frame_start c)]
       else []) /\
    ~ In StreamFailed (snd (cycle_step jpeg_save c l)) /\
    ~ In PortClosed (snd (cycle_step jpeg_save c l)).
Proof.
  intros (Hstop & Hfault & Hclock & image & Hcap & Hlen) Hloop Hrun.
  destruct (WireFacts.pack_be32_some _ Hlen) as [h Hh].
  exists image, h. split; [exact Hcap|]. split; [exact Hh|].
  unfold cycle_step. rewrite Hloop, Hstop. cbv zeta. rewrite Hrun, Hcap.
  unfold Sender.compress_and_send_frame, Sender.send_jpeg. rewrite Hh.
  rewrite Hfault. cbn [app cut].
  assert (Hz : Qeq_bool (sent_at c - start_time (me l)) 0 = false).
  { destruct (Qeq_bool (sent_at c - start_time (me l)) 0) eqn:E;
      [|reflexivity].
    apply Qeq_bool_iff in E. exfalso. apply Hclock. lra. }
  rewrite Hz. cbn [frames_sent start_time running thread].
  destruct ((frames_sent (me l) + 1) mod 30 =? 0);
    destruct (Sender.sleeps Sender.FRAME_INTERVAL
                (done_at c - frame_start c));
    cbn [fst snd progress_frames naps flat_map app In];
    repeat split; try reflexivity;
    intros H; repeat (destruct H as [H|H]; [discriminate|]); exact H.
Qed.

Lemma counts_shift (f : Z) (n : nat) :
  map (fun j => f + Z.of_nat j) (seq 1 (S n))
  = (f + 1) :: map (fun j => f + 1 + Z.of_nat j) (seq 1 n).
Proof.
  cbn [seq map]. f_equal. rewrite <- seq_shift, map_map.
  apply map_ext. intros j. lia.
Qed.

(** Turn after clean turn. *)
Lemma clean_run (cycles : list (cycle RawImage)) :
  forall l : loop,
  Forall (clean jpeg_save (start_time (me l))) cycles ->
  looping l = true ->
  running (me l) = true ->
  exists fs,
    Forall (fun hp => Wire.pack_be32 (Z.of_nat (length (snd hp)))
                      = Some (fst hp)) fs /\
    map snd fs = payloads jpeg_save cycles /\
    fst (run_cycles jpeg_save cycles l)
    = mkLoop (mkSender true (thread (me l))
                (frames_sent (me l) + Z.of_nat (length cycles))
                (start_time (me l)))
        (ser l ++ flat_map (fun hp => [Write (fst hp); Write (snd hp); Flush])
                    fs)
        (is_open l) true /\
    progress_frames (snd (run_cycles jpeg_save cycles l))
    = filter (fun k => k mod 30 =? 0)
        (map (fun j => frames_sent (me l) + Z.of_nat j)
           (seq 1 (length cycles))) /\
    (inject_Z (Z.of_nat (length cycles)) * Sender.FRAME_INTERVAL
     <= total (map (fun c => done_at c - frame_start c) cycles)
        + total (naps (snd (run_cycles jpeg_save cycles l))))%Q /\
    Forall (fun x => (0 < x)%Q)
      (naps (snd (run_cycles jpeg_save cycles l))) /\
    ~ In StreamFailed (snd (run_cycles jpeg_save cycles l)) /\
    ~ In PortClosed (snd (run_cycles jpeg_save cycles l)).
Proof.
  induction cycles as [|c cycles IH]; intros l Hclean Hloop Hrun.
  - exists []. cbn [run_cycles fst snd length seq map filter flat_map
                     payloads naps progress_frames total].
    rewrite app_nil_r, Z.add_0_r.
    repeat split; try constructor; try tauto.
    + destruct l as [[r t f st] sr o lp]. simpl in *. now subst.
    + change (inject_Z (Z.of_nat 0)) with 0%Q. cbn [total fold_right]. lra.
  - apply Forall_cons_iff in Hclean as [Hc Hclean].
    destruct (clean_step c l Hc Hloop Hrun)
      as (image & h & Hcap & Hh & Hl1 & Hp1 & Hn1 & Hs1 & Hx1).
    rewrite run_cycles_step. cbn [fst snd].
    set (l1 := fst (cycle_step jpeg_save c l)) in *.
    set (e1 := snd (cycle_step jpeg_save c l)) in *.
    assert (Hst : start_time (me l1) = start_time (me l))
      by now rewrite Hl1.
    rewrite <- Hst in Hclean.
    destruct (IH l1 Hclean) as (fs & Hfs & Hpay & Hl2 & Hp2 & Hsum & Hpos
                                & Hs2 & Hx2);
      [now rewrite Hl1|now rewrite Hl1|].
    exists ((h, jpeg_save image) :: fs).
    split; [constructor; assumption|].
    split; [cbn [map snd payloads flat_map]; rewrite Hcap;
            cbn [app]; now rewrite Hpay|].
    split.
    { rewrite Hl2, Hl1. cbn [me ser is_open thread frames_sent start_time
                             flat_map fst snd length].
      rewrite <- app_assoc.
      replace (frames_sent (me l) + Z.of_nat (S (length cycles)))
        with (frames_sent (me l) + 1 + Z.of_nat (length cycles)) by lia.
      reflexivity. }
    split.
    { rewrite progress_frames_app, Hp1, Hp2, Hl1.
      cbn [me frames_sent length]. rewrite counts_shift. cbn [filter].
      now destruct ((frames_sent (me l) + 1) mod 30 =? 0). }
    split.
    { rewrite naps_app, total_app, Hn1. cbn [length map total].
      destruct (nap_covers Sender.FRAME_INTERVAL (done_at c - frame_start c))
        as [Hcover _].
      rewrite Nat2Z.inj_succ. unfold Z.succ. rewrite inject_Z_plus.
      change (inject_Z 1) with 1%Q.
      rewrite total_cons.
      lra. }
    split.
    { rewrite naps_app, Hn1. apply Forall_app. split; [|exact Hpos].
      apply nap_covers. }
    split; rewrite in_app_iff; tauto.
Qed.

Lemma ended_run (cycles : list (cycle RawImage)) (l : loop) :
  looping l = false -> run_cycles jpeg_save cycles l = (l, []).
Proof.
  intros Hl. induction cycles as [|c cycles IH]; [reflexivity|].
  cbn [run_cycles]. unfold cycle_step at 1. now rewrite Hl, IH.
Qed.

(** The two ways out of a turn: on into the next one, with one more whole
    envelope on the line and one more frame counted; or out of the loop,
    through [finally], with whatever the turn still wrote. *)
Lemma step_shape (c : cycle RawImage) (l : loop) :
  looping l = true ->
  is_open l = true ->
  let l' := fst (cycle_step jpeg_save c l) in
  let evs := snd (cycle_step jpeg_save c l) in
  (looping l' = true /\ is_open l' = true /\
   frames_sent (me l') = frames_sent (me l) + 1 /\
   (exists image h,
      captured c = Some image /\
      Wire.pack_be32 (Z.of_nat (length (jpeg_save image))) = Some h /\
      ser l' = ser l ++ [Write h; Write (jpeg_save image); Flush]) /\
   ~ In StreamFailed evs /\ ~ In PortClosed evs)
  \/
  (looping l' = false /\ is_open l' = false /\ running (me l') = false /\
   (evs = [PortClosed] \/ evs = [StreamFailed; PortClosed]) /\
   exists debris,
     ser l' = ser l ++ debris /\
     (frames_sent (me l') = frames_sent (me l) \/
      (frames_sent (me l') = frames_sent (me l) + 1 /\
       exists image h,
         captured c = Some image /\
         Wire.pack_be32 (Z.of_nat (length (jpeg_save image))) = Some h /\
         debris = [Write h; Write (jpeg_save image); Flush]))).
Proof.
  intros Hloop Hopen. unfold cycle_step. rewrite Hloop. cbv zeta.
  assert (Hquit : forall m sr d,
            let l0 := mkLoop m sr true true in
            sr = ser l ++ d ->
            frames_sent m = frames_sent (me l) ->
            forall r, (r = finally l0 \/ r = raise l0) ->
            looping (fst r) = false /\ is_open (fst r) = false /\
            running (me (fst r)) = false /\
            (snd r = [PortClosed] \/ snd r = [StreamFailed; PortClosed]) /\
            exists debris,
              ser (fst r) = ser l ++ debris /\
              (frames_sent (me (fst r)) = frames_sent (me l) \/
               (frames_sent (me (fst r)) = frames_sent (me l) + 1 /\
                exists image h,
                  captured c = Some image /\
                  Wire.pack_be32 (Z.of_nat (length (jpeg_save image)))
                  = Some h /\
                  debris = [Write h; Write (jpeg_save image); Flush]))).
  { intros m sr d l0 Hsr Hm r [->| ->]; unfold raise, finally; cbn;
      repeat split; auto; exists d; split; auto. }
  set (me0 := if stop_called c then stop (me l) else me l).
  assert (Hme0 : frames_sent me0 = frames_sent (me l))
    by (unfold me0; now destruct (stop_called c)).
  rewrite Hopen.
  destruct (running me0) eqn:Hrun.
  2:{ right. apply (Hquit me0 (ser l) []); auto using app_nil_r. }
  destruct (captured c) as [image|] eqn:Hcap.
  2:{ right. apply (Hquit me0 (ser l) []); auto using app_nil_r. }
  unfold Sender.compress_and_send_frame, Sender.send_jpeg.
  destruct (Wire.pack_be32 (Z.of_nat (length (jpeg_save image))))
    as [h|] eqn:Hh.
  2:{ right. apply (Hquit me0 (ser l) []); auto using app_nil_r. }
  cbn [app].
  destruct (cut (failing c) [Write h; Write (jpeg_save image); Flush])
    as [made raised] eqn:Hcut.
  destruct raised.
  { right. apply (Hquit me0 (ser l ++ made) made); auto. }
  assert (Hmade : made = [Write h; Write (jpeg_save image); Flush]).
  { unfold cut in Hcut. destruct (failing c) as [[idx k]|];
      [|now injection Hcut].
    cbn [index sent] in Hcut.
    destruct idx as [|[|[|[|idx]]]]; cbn in Hcut;
      try discriminate; now injection Hcut. }
  subst made. cbn [frames_sent start_time running thread].
  destruct ((frames_sent me0 + 1) mod 30 =? 0).
  - destruct (Qeq_bool (sent_at c - start_time me0) 0).
    + right. unfold raise, finally. cbn. rewrite Hme0.
      repeat split; auto.
      exists [Write h; Write (jpeg_save image); Flush]. split; auto.
      right. split; auto. exists image, h. auto.
    + left. cbn [fst snd looping is_open me ser frames_sent].
      rewrite Hme0. repeat split; auto.
      * exists image, h. auto.
      * destruct (Sender.sleeps _ _); simpl; intuition discriminate.
      * destruct (Sender.sleeps _ _); simpl; intuition discriminate.
  - left. cbn [fst snd looping is_open me ser frames_sent].
    rewrite Hme0. repeat split; auto.
    + exists image, h. auto.
    + destruct (Sender.sleeps _ _); simpl; intuition discriminate.
    + destruct (Sender.sleeps _ _); simpl; intuition discriminate.
Qed.

(** Any run of the loop, whatever goes wrong in it. *)
Lemma run_shape (cycles : list (cycle RawImage)) :
  forall l : loop,
  looping l = true ->
  is_open l = true ->
  let l' := fst (run_cycles jpeg_save cycles l) in
  let evs := snd (run_cycles jpeg_save cycles l) in
  exists fs debris,
    Forall (fun hp => Wire.pack_be32 (Z.of_nat (length (snd hp)))
                      = Some (fst hp)) fs /\
    ser l' = ser l
             ++ flat_map (fun hp => [Write (fst hp); Write (snd hp); Flush])
                  fs
             ++ debris /\
    frames_sent (me l') = frames_sent (me l) + Z.of_nat (length fs) /\
    (exists rest, payloads jpeg_save cycles = map snd fs ++ rest) /\
    (looping l' = true ->
     debris = [] /\ is_open l' = true /\ length fs = length cycles /\
     ~ In StreamFailed evs /\ ~ In PortClosed evs) /\
    (looping l' = false ->
     is_open l' = false /\ running (me l') = false /\
     exists pre,
       (evs = pre ++ [PortClosed] \/ evs = pre ++ [StreamFailed; PortClosed])
       /\ ~ In StreamFailed pre /\ ~ In PortClosed pre).
Proof.
  induction cycles as [|c cycles IH]; intros l Hloop Hopen.
  - exists [], []. cbn [run_cycles fst snd flat_map length app map payloads].
    rewrite app_nil_r, Z.add_0_r.
    repeat split; auto; try (exists []; reflexivity);
      try (rewrite Hloop in *; discriminate).
  - rewrite run_cycles_step. cbn [fst snd].
    destruct (step_shape c l Hloop Hopen)
      as [(Hl1 & Ho1 & Hf1 & (image & h & Hcap & Hh & Hser1) & Hs1 & Hx1)
         |(Hl1 & Ho1 & Hr1 & Hev1 & debris & Hser1 & Hcount)].
    + set (l1 := fst (cycle_step jpeg_save c l)) in *.
      set (e1 := snd (cycle_step jpeg_save c l)) in *.
      destruct (IH l1 Hl1 Ho1)
        as (fs & debris & Hfs & Hser & Hcount & (rest & Hpay) & Hon & Hoff).
      exists ((h, jpeg_save image) :: fs), debris.
      split; [constructor; assumption|].
      split; [rewrite Hser, Hser1; cbn [flat_map fst snd];
              now rewrite <- !app_assoc|].
      split; [rewrite Hcount, Hf1; cbn [length]; lia|].
      split; [exists rest; cbn [payloads flat_map map snd]; rewrite Hcap;
              cbn [app]; f_equal; exact Hpay|].
      split.
      * intros Hl. destruct (Hon Hl) as (Hd & Ho & Hlen & Hs & Hx).
        repeat split; auto; try (cbn [length]; lia);
          rewrite in_app_iff; tauto.
      * intros Hl. destruct (Hoff Hl) as (Ho & Hr & pre & Hev & Hs & Hx).
        repeat split; auto. exists (e1 ++ pre). rewrite <- !app_assoc.
        split; [destruct Hev as [-> | ->]; auto|].
        split; rewrite in_app_iff; tauto.
    + set (l1 := fst (cycle_step jpeg_save c l)) in *.
      set (e1 := snd (cycle_step jpeg_save c l)) in *.
      rewrite (ended_run cycles l1 Hl1). cbn [fst snd]. rewrite app_nil_r.
      assert (Hend : looping l1 = false ->
                     is_open l1 = false /\ running (me l1) = false /\
                     exists pre,
                       (e1 = pre ++ [PortClosed] \/
                        e1 = pre ++ [StreamFailed; PortClosed]) /\
                       ~ In StreamFailed pre /\ ~ In PortClosed pre).
      { intros _. repeat split; auto. exists []. simpl. tauto. }
      destruct Hcount as [Hsame|(Hone & image & h & Hcap & Hh & ->)].
      * exists [], debris. cbn [flat_map app length map].
        repeat split; auto; try lia; try (exists (payloads jpeg_save
                                                    (c :: cycles));
                                          reflexivity);
          try (rewrite Hl1 in *; discriminate); apply Hend; auto.
      * exists [(h, jpeg_save image)], [].
        cbn [flat_map app length map fst snd].
        split; [constructor; [exact Hh|constructor]|].
        split; [exact Hser1|].
        split; [rewrite Hone; lia|].
        split; [exists (payloads jpeg_save cycles);
                cbn [payloads flat_map]; now rewrite Hcap|].
        split; [intros Hl; rewrite Hl1 in Hl; discriminate|exact Hend].
Qed.

End WithEncoder.

End SenderLoopFacts.

Section SenderExtras.

Import Serial SenderLoop.

Variable RawImage : Type.
Variable jpeg_save : RawImage -> list byte.

(** X10.  A run of clean turns (nobody stops the sender, every capture
    gives an image whose encoding fits the length field, no call on the
    handle raises, the clock has moved since the loop began): the calls on
    the handle are, for each image in order, the write of its four-byte
    length, the write of its payload and a flush, and nothing else; the
    frame count is the number of turns; the loop is still running, the
    port open, and nothing was reported as failed or closed. *)
Theorem sender_puts_envelopes
  (cycles : list (cycle RawImage)) (s : ScreenSender) (t0 : Q) :
  running s = true ->
  Forall (clean jpeg_save t0) cycles ->
  let l := fst (sender_loop jpeg_save true t0 cycles s) in
  let evs := snd (sender_loop jpeg_save true t0 cycles s) in
  exists fs,
    Forall (fun hp => Wire.pack_be32 (Z.of_nat (length (snd hp)))
                      = Some (fst hp)) fs /\
    map snd fs = payloads jpeg_save cycles /\
    ser l = flat_map (fun hp => [Write (fst hp); Write (snd hp); Flush]) fs /\
    wire (ser l) = flat_map (fun hp => fst hp ++ snd hp) fs /\
    frames_sent (me l) = Z.of_nat (length cycles) /\
    looping l = true /\ is_open l = true /\ running (me l) = true /\
    ~ In StreamFailed evs /\ ~ In PortClosed evs.
Proof.
  intros Hrun Hclean l evs. subst l evs. unfold sender_loop.
  set (l0 := mkLoop (mkSender (running s) (thread s) 0 t0) [] true true).
  destruct (SenderLoopFacts.clean_run RawImage jpeg_save cycles l0
              Hclean eq_refl Hrun)
    as (fs & Hfs & Hpay & Hl & _ & _ & _ & Hs & Hx).
  exists fs. rewrite Hl. subst l0.
  cbn [me ser is_open looping frames_sent running thread fst snd app].
  rewrite SenderLoopFacts.wire_envelopes.
  repeat split; auto.
Qed.

(** X11.  From one end to the other: what a run of clean turns of the
    sender puts on the line, the receiver, left to run for one step per
    payload byte and two per frame, hands to its decoder as exactly the
    encoded images, in the order they were captured. *)
Theorem sender_to_receiver
  (Image : Type) (image_open : list byte -> option Image)
  (cycles : list (cycle RawImage)) (s : ScreenSender) (t0 t1 : Q)
  (ins : list Receiver.input) :
  running s = true ->
  Forall (clean jpeg_save t0) cycles ->
  Receiver.all_running ins ->
  (list_sum (map (fun P => length P + 2) (payloads jpeg_save cycles))
   <= length ins)%nat ->
  Receiver.decoded
    (snd (Receiver.run image_open ins
            (Receiver.init
               (push (wire (ser (fst (sender_loop jpeg_save true t0
                                        cycles s)))) [])
               t1)))
  = payloads jpeg_save cycles.
Proof.
  intros Hrun Hclean Hins Hfuel. unfold sender_loop.
  set (l0 := mkLoop (mkSender (running s) (thread s) 0 t0) [] true true).
  destruct (SenderLoopFacts.clean_run RawImage jpeg_save cycles l0
              Hclean eq_refl Hrun)
    as (fs & Hfs & Hpay & Hl & _).
  rewrite Hl. subst l0. cbn [ser app fst].
  rewrite SenderLoopFacts.wire_envelopes.
  rewrite <- Hpay in Hfuel |- *. rewrite map_map in Hfuel.
  destruct (ReaderFacts.receive_stream Image image_open fs ins
              (Receiver.init
                 (push (flat_map (fun hp => fst hp ++ snd hp) fs) []) t1)
              Hfs eq_refl eq_refl (ReceiverFacts.clock_ok_init _ _)
              Hins Hfuel)
    as (s' & evs & Er & _ & _ & Hd & _).
  now rewrite Er.
Qed.

(** X12.  Progress is printed on every thirtieth frame and on no other:
    in a run of [n] clean turns the frame counts printed are exactly the
    multiples of 30 among 1, ..., n, in order. *)
Theorem progress_every_thirtieth
  (cycles : list (cycle RawImage)) (s : ScreenSender) (t0 : Q) :
  running s = true ->
  Forall (clean jpeg_save t0) cycles ->
  progress_frames (snd (sender_loop jpeg_save true t0 cycles s))
  = filter (fun k => k mod 30 =? 0)
      (map Z.of_nat (seq 1 (length cycles))).
Proof.
  intros Hrun Hclean. unfold sender_loop.
  set (l0 := mkLoop (mkSender (running s) (thread s) 0 t0) [] true true).
  destruct (SenderLoopFacts.clean_run RawImage jpeg_save cycles l0
              Hclean eq_refl Hrun)
    as (fs & _ & _ & _ & Hp & _).
  rewrite Hp. reflexivity.
Qed.

(** X13.  The pacing floor: over a run of [n] clean turns, the time the
    turns took (from line 121 to line 143) and the time slept add up to at
    least [n] frame intervals, and every sleep asked for is positive.  The
    loop never runs faster than the target rate. *)
Theorem pacing_floor
  (cycles : list (cycle RawImage)) (s : ScreenSender) (t0 : Q) :
  running s = true ->
  Forall (clean jpeg_save t0) cycles ->
  let evs := snd (sender_loop jpeg_save true t0 cycles s) in
  (inject_Z (Z.of_nat (length cycles)) * Sender.FRAME_INTERVAL
   <= total (map (fun c => done_at c - frame_start c) cycles)
      + total (naps evs))%Q /\
  Forall (fun d => (0 < d)%Q) (naps evs).
Proof.
  intros Hrun Hclean evs. subst evs. unfold sender_loop.
  set (l0 := mkLoop (mkSender (running s) (thread s) 0 t0) [] true true).
  destruct (SenderLoopFacts.clean_run RawImage jpeg_save cycles l0
              Hclean eq_refl Hrun)
    as (fs & _ & _ & _ & _ & Hsum & Hpos & _).
  split; assumption.
Qed.

(** X14.  However the loop ends (a stop request, a capture that raises, a
    payload too long for the length field, a write or a flush that raises,
    a progress line printed with no time elapsed), it ends through
    [finally]: the port is closed, once and as the last thing, and
    [self.running] is false; a failure is printed at most once, right
    before.  While the loop has not ended the port is open and nothing of
    the kind has been printed. *)
Theorem loop_teardown
  (cycles : list (cycle RawImage)) (s : ScreenSender) (t0 : Q) :
  let l := fst (sender_loop jpeg_save true t0 cycles s) in
  let evs := snd (sender_loop jpeg_save true t0 cycles s) in
  (looping l = true /\
   is_open l = true /\ ~ In StreamFailed evs /\ ~ In PortClosed evs) \/
  (looping l = false /\
   is_open l = false /\ running (me l) = false /\
   exists pre,
     (evs = pre ++ [PortClosed] \/ evs = pre ++ [StreamFailed; PortClosed])
     /\ ~ In StreamFailed pre /\ ~ In PortClosed pre).
Proof.
  cbv zeta. unfold sender_loop.
  set (l0 := mkLoop (mkSender (running s) (thread s) 0 t0) [] true true).
  destruct (SenderLoopFacts.run_shape RawImage jpeg_save cycles l0
              eq_refl eq_refl)
    as (fs & debris & _ & _ & _ & _ & Hon & Hoff).
  destruct (looping (fst (run_cycles jpeg_save cycles l0))) eqn:Hl.
  - left. destruct (Hon eq_refl) as (_ & Ho & _ & Hs & Hx). auto.
  - right. split; [reflexivity|]. exact (Hoff eq_refl).
Qed.

(** X15.  Framing survives failure: after any run of the loop, the bytes
    on the line are the whole envelopes of the frames counted in
    [frames_sent], which are the first images captured, in order, followed
    by what a failing turn left behind, if anything; while the loop has
    not ended nothing follows them. *)
Theorem framing_survives_failure
  (cycles : list (cycle RawImage)) (s : ScreenSender) (t0 : Q) :
  let l := fst (sender_loop jpeg_save true t0 cycles s) in
  exists fs debris,
    Forall (fun hp => Wire.pack_be32 (Z.of_nat (length (snd hp)))
                      = Some (fst hp)) fs /\
    wire (ser l) = flat_map (fun hp => fst hp ++ snd hp) fs ++ debris /\
    frames_sent (me l) = Z.of_nat (length fs) /\
    map snd fs = firstn (length fs) (payloads jpeg_save cycles) /\
    (debris = [] \/ looping l = false).
Proof.
  cbv zeta. unfold sender_loop.
  set (l0 := mkLoop (mkSender (running s) (thread s) 0 t0) [] true true).
  destruct (SenderLoopFacts.run_shape RawImage jpeg_save cycles l0
              eq_refl eq_refl)
    as (fs & debris & Hfs & Hser & Hcount & (rest & Hpay) & Hon & _).
  exists fs, (wire debris).
  split; [exact Hfs|].
  split; [rewrite Hser; subst l0; cbn [ser app];
          now rewrite SenderLoopFacts.wire_app,
            SenderLoopFacts.wire_envelopes|].
  split; [rewrite Hcount; subst l0; cbn [me frames_sent]; lia|].
  split.
  - rewrite Hpay. rewrite <- (length_map snd fs).
    now rewrite firstn_app, Nat.sub_diag, firstn_all, app_nil_r.
  - destruct (looping (fst (run_cycles jpeg_save cycles l0))) eqn:Hl;
      [left|now right].
    destruct (Hon eq_refl) as (-> & _). reflexivity.
Qed.

(** X16.  A failed open does not go through [finally].  When
    [serial.Serial] raises, [sender_loop] returns with the object as
    [start] left it: still marked running, so the button reads "Stop
    Sending", a further [start] does nothing, and the next toggle stops
    instead of trying again.  When the loop proper has ended, the object
    is marked not running, the button reads "Start Sending" and the next
    toggle starts it. *)
Theorem failed_open_keeps_running
  (cycles : list (cycle RawImage)) (s : ScreenSender) (t0 : Q) :
  let failed := fst (sender_loop jpeg_save false t0 cycles (start s)) in
  let ran := fst (sender_loop jpeg_save true t0 cycles (start s)) in
  (me failed = start s /\
   ser failed = [] /\
   update_button_state (me failed) = StopSending /\
   start (me failed) = me failed /\
   running (toggle_sending (me failed)) = false) /\
  (looping ran = true \/
   (update_button_state (me ran) = StartSending /\
    running (toggle_sending (me ran)) = true)).
Proof.
  cbv zeta. split.
  - assert (Hr : running (start s) = true)
      by (unfold start; destruct (running s) eqn:E; [exact E|reflexivity]).
    unfold sender_loop, update_button_state, toggle_sending.
    cbn [fst me ser]. rewrite Hr.
    repeat split. unfold start at 1. now rewrite Hr.
  - unfold sender_loop.
    set (l0 := mkLoop (mkSender (running (start s)) (thread (start s)) 0 t0)
                 [] true true).
    destruct (SenderLoopFacts.run_shape RawImage jpeg_save cycles l0
                eq_refl eq_refl)
      as (fs & debris & _ & _ & _ & _ & _ & Hoff).
    destruct (looping (fst (run_cycles jpeg_save cycles l0))) eqn:Hl;
      [now left|right].
    destruct (Hoff eq_refl) as (_ & Hr & _).
    unfold update_button_state, toggle_sending, start. now rewrite Hr.
Qed.

End SenderExtras.

(** * Properties of the viewer's window *)

Module ViewerFacts.

Import String Viewer.

Lemma combine_app (A B : Type) (a b : list A) (c d : list B) :
  List.length a = List.length c ->
  combine (a ++ b) (c ++ d) = (combine a c ++ combine b d)%list.
Proof.
  revert c. induction a as [|x a IH]; intros [|y c] H; try discriminate.
  - reflexivity.
  - simpl. f_equal. apply IH. now injection H.
Qed.

Lemma serial_message_matches (detail : string) :
  contains "Serial error"%string (message Receiver.SerialError detail) = true.
Proof. reflexivity. Qed.

Lemma other_message_matches (e : Receiver.error) (detail : string) :
  e <> Receiver.SerialError ->
  contains "Serial error"%string (message e detail)
  = contains "Serial error"%string detail.
Proof.
  intros He. destruct e; [reflexivity|contradiction|reflexivity].
Qed.

Section WithImage.

Variable Image : Type.

(** What [disconnect_port] leaves, whatever it finds. *)
Lemma disconnected (w : MainWindow Image) :
  let w' := disconnect_port w in
  receiver_thread w' = None /\
  connect_button w' = StartReceiving /\
  connection_label w' = None /\
  fps_label w' = None /\
  screenshot_enabled w' = false /\
  display_shown w' = false.
Proof. repeat split. Qed.

Lemma deliver_serial_error (detail : string) (w : MainWindow Image) :
  deliver detail (Receiver.EvError Receiver.SerialError) w
  = disconnect_port
      (mkWindow Image (receiver_thread w) (current_image w) (port_combo w)
         (connect_button w) (connection_label w) (fps_label w)
         (screenshot_enabled w) (display_shown w)
         (Some (message Receiver.SerialError detail))
         (dialogs w) (thread_calls w)).
Proof. reflexivity. Qed.

End WithImage.

End ViewerFacts.

Section ViewerExtras.

Import String Viewer.

Variable Image : Type.

(** X17.  How the window sorts the thread's errors.  The text of a serial
    error always contains "Serial error", so [handle_error] shows it and
    disconnects: the thread, if there is one, is told to stop and
    forgotten, the button reads "Start Receiving", the labels read
    "Disconnected" and "FPS: --", the screenshot button is disabled and
    the display hidden.  The text of any other error contains "Serial
    error" exactly when the exception's own text does; when it does not,
    [handle_error] shows the message and changes nothing else. *)
Theorem error_classification
  (e : Receiver.error) (detail : string) (w : MainWindow Image) :
  let w' := handle_error (message e detail) w in
  status_bar w' = Some (message e detail) /\
  (e = Receiver.SerialError ->
   receiver_thread w' = None /\
   connect_button w' = StartReceiving /\
   connection_label w' = None /\
   fps_label w' = None /\
   screenshot_enabled w' = false /\
   display_shown w' = false /\
   thread_calls w'
   = thread_calls w
     ++ match receiver_thread w with
        | Some t => [Stopped (port_name t)]
        | None => []
        end) /\
  (e <> Receiver.SerialError ->
   contains "Serial error"%string (message e detail)
   = contains "Serial error"%string detail /\
   (contains "Serial error"%string detail = false ->
    w' = mkWindow Image (receiver_thread w) (current_image w) (port_combo w)
           (connect_button w) (connection_label w) (fps_label w)
           (screenshot_enabled w) (display_shown w)
           (Some (message e detail)) (dialogs w) (thread_calls w))).
Proof.
  cbv zeta. split; [|split].
  - unfold handle_error.
    now destruct (contains "Serial error"%string (message e detail)).
  - intros ->. unfold handle_error.
    rewrite ViewerFacts.serial_message_matches.
    unfold disconnect_port. cbn.
    repeat split. destruct (receiver_thread w); [reflexivity|].
    now rewrite app_nil_r.
  - intros He. pose proof (ViewerFacts.other_message_matches e detail He) as H.
    split; [exact H|].
    intros Hd. unfold handle_error. now rewrite H, Hd.
Qed.


(** X19.  Toggling.  With a port selected, one toggle on a window without
    a thread starts a thread on that port and shows the connected state;
    once the thread has set [running], the next toggle stops it and shows
    the disconnected state.  But a toggle that comes while the thread has
    not yet set [running] does not stop it: it starts a second thread on
    the same port, and nothing is told to stop.  With no port selected, or
    the "No ports available" placeholder, a toggle only raises the
    connection-error dialog. *)
Theorem toggle_connection_behaviour (w : MainWindow Image) :
  receiver_thread w = None ->
  let port := port_combo w in
  let w1 := toggle_connection w in
  (port <> EmptyString -> port <> "No ports available"%string ->
   receiver_thread w1 = Some (mkThread port false) /\
   connect_button w1 = StopReceiving /\
   connection_label w1 = Some port /\
   thread_calls w1 = thread_calls w ++ [Started port] /\
   (forall w2 : MainWindow Image,
      receiver_thread w2 = Some (mkThread port true) ->
      receiver_thread (toggle_connection w2) = None /\
      connect_button (toggle_connection w2) = StartReceiving /\
      thread_calls (toggle_connection w2)
      = thread_calls w2 ++ [Stopped port]) /\
   thread_calls (toggle_connection w1)
   = thread_calls w ++ [Started port; Started port]) /\
  (port = EmptyString \/ port = "No ports available"%string ->
   receiver_thread w1 = None /\
   connect_button w1 = connect_button w /\
   thread_calls w1 = thread_calls w /\
   dialogs w1 = dialogs w ++ [ConnectionError]).
Proof.
  intros Hnone. cbv zeta.
  assert (Ht : toggle_connection w = connect_to_port w)
    by (unfold toggle_connection; now rewrite Hnone).
  rewrite Ht. split.
  - intros H1 H2.
    assert (Hc : forall v : MainWindow Image,
              port_combo v = port_combo w ->
              connect_to_port v
              = mkWindow Image (Some (mkThread (port_combo w) false))
                  (current_image v) (port_combo v) StopReceiving
                  (Some (port_combo w)) (fps_label v) true true
                  (status_bar v) (dialogs v)
                  (thread_calls v ++ [Started (port_combo w)])).
    { intros v Hv. unfold connect_to_port. rewrite Hv.
      apply String.eqb_neq in H1, H2. now rewrite H1, H2. }
    rewrite (Hc w eq_refl).
    split; [reflexivity|]. split; [reflexivity|].
    split; [reflexivity|]. split; [reflexivity|]. split.
    + intros w2 H. unfold toggle_connection. rewrite H. cbn [running].
      unfold disconnect_port. cbn [receiver_thread connect_button
                                   thread_calls].
      rewrite H. now split.
    + unfold toggle_connection. cbn [receiver_thread running].
      rewrite Hc by reflexivity. cbn [thread_calls].
      now rewrite <- app_assoc.
  - intros Hp. unfold connect_to_port.
    assert (Hb : (String.eqb (port_combo w) EmptyString ||
                  String.eqb (port_combo w) "No ports available"%string)%bool
                 = true).
    { destruct Hp as [-> | ->]; reflexivity. }
    rewrite Hb. cbn. repeat split. exact Hnone.
Qed.

End ViewerExtras.

(** ** Concrete runs of the further properties *)

Module ExtraRuns.

Import Serial.

Lemma stream_roundtrip_witness :
  Receiver.decoded
    (snd (Receiver.run Receiver.soi_open (Receiver.steady 7 0%Q)
            (Receiver.init
               (push (flat_map (fun hp => fst hp ++ snd hp)
                        [([x00; x00; x00; x02], [xff; xd8]);
                         ([x00; x00; x00; x01], [x2a])]) [])
               0%Q)))
  = [[xff; xd8]; [x2a]].
Proof.
  apply (stream_roundtrip (list byte) Receiver.soi_open
           [([x00; x00; x00; x02], [xff; xd8]);
            ([x00; x00; x00; x01], [x2a])]
           (Receiver.steady 7 0%Q) 0%Q).
  - repeat constructor.
  - repeat constructor.
  - simpl. lia.
Defined.

Lemma empty_payload_decoded_witness :
  Receiver.reads
    (snd (Receiver.run Receiver.soi_open [Receiver.go; Receiver.halt]
            (Receiver.init [Chunk [x00; x00; x00; x00; x2a]] 0%Q)))
  = [4%Z].
Proof.
  apply (empty_payload_decoded (list byte) Receiver.soi_open
           Receiver.go Receiver.halt
           (Receiver.init [Chunk [x00; x00; x00; x00; x2a]] 0%Q)
           [x2a] []);
    reflexivity.
Defined.

Lemma serial_error_is_final_witness :
  Receiver.pc
    (fst (Receiver.session Receiver.soi_open false
            [Chunk [x00; x00; x00; x02; xff; xd8]] 0%Q
            (Receiver.steady 3 0%Q)))
  = Receiver.Stopped /\
  Receiver.pc
    (fst (Receiver.session Receiver.soi_open true
            [Chunk [x00; x00; x00; x02]; Fault] 0%Q
            (Receiver.steady 3 0%Q)))
  = Receiver.Stopped.
Proof.
  split.
  - apply (serial_error_is_final (list byte) Receiver.soi_open false
             [Chunk [x00; x00; x00; x02; xff; xd8]] 0%Q
             (Receiver.steady 3 0%Q)).
    simpl. auto.
  - apply (serial_error_is_final (list byte) Receiver.soi_open true
             [Chunk [x00; x00; x00; x02]; Fault] 0%Q
             (Receiver.steady 3 0%Q)).
    simpl. auto.
Defined.

Lemma stop_is_prompt_witness :
  Receiver.pc
    (fst (Receiver.run Receiver.soi_open
            [Receiver.halt; Receiver.halt; Receiver.go]
            (Receiver.mkState (Receiver.AwaitingPayload 2 [] 2)
               [Chunk [xff; xd8]] 0 0 0)))
  = Receiver.Stopped.
Proof.
  apply (stop_is_prompt (list byte) Receiver.soi_open
           Receiver.halt Receiver.halt [Receiver.go]
           (Receiver.mkState (Receiver.AwaitingPayload 2 [] 2)
              [Chunk [xff; xd8]] 0 0 0));
    reflexivity.
Defined.

Lemma header_unpack_pack_witness :
  Wire.pack_be32 258 = Some [x00; x00; x01; x02].
Proof.
  apply (header_unpack_pack [x00; x00; x01; x02] 258). reflexivity.
Defined.

(** Two clean turns. *)
Lemma sample_cycles_clean :
  Forall (SenderLoop.clean (fun image => image) 0%Q)
    [SenderLoop.sample_cycle 1 [xff; xd8]; SenderLoop.sample_cycle 2 [x2a]].
Proof.
  repeat constructor; try discriminate;
    eexists; (split; [reflexivity|]);
    unfold Wire.max_length; simpl; lia.
Qed.

Lemma sender_puts_envelopes_witness :
  exists fs,
    map snd fs = [[xff; xd8]; [x2a]] /\
    wire (SenderLoop.ser
            (fst (SenderLoop.sender_loop (fun image => image) true 0%Q
                    [SenderLoop.sample_cycle 1 [xff; xd8];
                     SenderLoop.sample_cycle 2 [x2a]]
                    (SenderLoop.start SenderLoop.new_sender))))
    = flat_map (fun hp => fst hp ++ snd hp) fs.
Proof.
  destruct (sender_puts_envelopes (list byte) (fun image => image)
              [SenderLoop.sample_cycle 1 [xff; xd8];
               SenderLoop.sample_cycle 2 [x2a]]
              (SenderLoop.start SenderLoop.new_sender) 0%Q
              eq_refl sample_cycles_clean)
    as (fs & _ & Hpay & _ & Hwire & _).
  exists fs. split; [exact Hpay|exact Hwire].
Defined.

Lemma sender_to_receiver_witness :
  Receiver.decoded
    (snd (Receiver.run Receiver.soi_open (Receiver.steady 7 0%Q)
            (Receiver.init
               (push (wire (SenderLoop.ser
                              (fst (SenderLoop.sender_loop
                                      (fun image => image) true 0%Q
                                      [SenderLoop.sample_cycle 1 [xff; xd8];
                                       SenderLoop.sample_cycle 2 [x2a]]
                                      (SenderLoop.start
                                         SenderLoop.new_sender))))) [])
               5%Q)))
  = [[xff; xd8]; [x2a]].
Proof.
  apply (sender_to_receiver (list byte) (fun image => image)
           (list byte) Receiver.soi_open
           [SenderLoop.sample_cycle 1 [xff; xd8];
            SenderLoop.sample_cycle 2 [x2a]]
           (SenderLoop.start SenderLoop.new_sender) 0%Q 5%Q
           (Receiver.steady 7 0%Q) eq_refl sample_cycles_clean).
  - repeat constructor.
  - simpl. lia.
Defined.

(** Sixty-one clean turns. *)
Lemma sample_run_clean :
  Forall (SenderLoop.clean (fun image => image) 0%Q)
    (repeat (SenderLoop.sample_cycle 1 [xff; xd8]) 61).
Proof.
  apply Forall_forall. intros c Hc. apply repeat_spec in Hc. subst c.
  repeat split; try discriminate.
  eexists. split; [reflexivity|]. unfold Wire.max_length. simpl. lia.
Qed.

Lemma progress_every_thirtieth_witness :
  SenderLoop.progress_frames
    (snd (SenderLoop.sender_loop (fun image => image) true 0%Q
            (repeat (SenderLoop.sample_cycle 1 [xff; xd8]) 61)
            (SenderLoop.start SenderLoop.new_sender)))
  = [30; 60].
Proof.
  exact (eq_trans
           (progress_every_thirtieth (list byte) (fun image => image)
              (repeat (SenderLoop.sample_cycle 1 [xff; xd8]) 61)
              (SenderLoop.start SenderLoop.new_sender) 0%Q
              eq_refl sample_run_clean)
           eq_refl).
Defined.

Lemma pacing_floor_witness :
  Forall (fun d => (0 < d)%Q)
    (SenderLoop.naps
       (snd (SenderLoop.sender_loop (fun image => image) true 0%Q
               [SenderLoop.sample_cycle 1 [xff; xd8];
                SenderLoop.sample_cycle 2 [x2a]]
               (SenderLoop.start SenderLoop.new_sender)))).
Proof.
  apply (proj2 (pacing_floor (list byte) (fun image => image)
                  [SenderLoop.sample_cycle 1 [xff; xd8];
                   SenderLoop.sample_cycle 2 [x2a]]
                  (SenderLoop.start SenderLoop.new_sender) 0%Q
                  eq_refl sample_cycles_clean)).
Defined.

Lemma error_classification_witness :
  Viewer.receiver_thread
    (Viewer.handle_error
       (Viewer.message Receiver.SerialError String.EmptyString)
       (Viewer.mkWindow (list byte)
          (Some (Viewer.mkThread String.EmptyString true))
          None String.EmptyString Viewer.StopReceiving
          (Some String.EmptyString) (Some 1%Q) true true None [] []))
  = None.
Proof.
  apply (proj1 (proj2 (error_classification (list byte)
                         Receiver.SerialError String.EmptyString
                         (Viewer.mkWindow (list byte)
                            (Some (Viewer.mkThread String.EmptyString true))
                            None String.EmptyString Viewer.StopReceiving
                            (Some String.EmptyString) (Some 1%Q) true true
                            None [] [])))).
  reflexivity.
Defined.


Lemma toggle_connection_behaviour_witness :
  Viewer.connect_button
    (Viewer.toggle_connection
       (Viewer.new_window (list byte)
          (String.String Ascii.Space String.EmptyString)))
  = Viewer.StopReceiving.
Proof.
  apply (proj1 (toggle_connection_behaviour (list byte)
                  (Viewer.new_window (list byte)
                     (String.String Ascii.Space String.EmptyString))
                  eq_refl));
    discriminate.
Defined.

End ExtraRuns.
